(** * simple-cmap: a linear-scan map over opaque references

    Shallow embedding of [src/map.c] (with the declarations of
    [include/map.h]) and the properties of its comparators and of the
    container operations.

    Conventions of the embedding.
    - C integers are [Z]; every conversion between [unsigned int], [int]
      and [size_t] that the source performs is written out: [to_uint],
      [to_size_t] and [wrap_int] wrap around, [to_int] faults outside the
      range of [int].
    - A pointer is [NULL] or a block identifier with an offset; the caller's
      key data lives in a [heap] of typed cells and character arrays.
    - Behaviour the language does not define (reading through a bad
      pointer, indexing outside the entry array) is a fault: the [option]
      monad, [None].
    - [malloc]/[realloc] success is an explicit boolean argument. *)

From Stdlib Require Import ZArith Lia.
From Stdlib Require Import Floats.SpecFloat.
From stdpp Require Import base option list gmap.

Local Open Scope Z_scope.

(** ** Machine integers *)

Module MachInt.

Definition UINT_MOD : Z := 2 ^ 32.
Definition INT_MIN : Z := - 2 ^ 31.
Definition INT_MAX : Z := 2 ^ 31 - 1.
Definition SIZE_MOD : Z := 2 ^ 64.

(** Conversion to [unsigned int]: reduction modulo [2^32]. *)
Definition to_uint (x : Z) : Z := x mod UINT_MOD.

(** Conversion to [size_t] (LP64): reduction modulo [2^64]. *)
Definition to_size_t (x : Z) : Z := x mod SIZE_MOD.

(** Conversion to [int] of a value that is then used as an index or as a
    byte count.  A value the type cannot represent has no result fixed by
    the language (it is implementation-defined): a fault. *)
Definition to_int (x : Z) : option Z :=
  if decide (INT_MIN <= x <= INT_MAX) then Some x else None.

(** The cast [(int)u] of an [unsigned int] that a function returns, as
    compilers perform it: the value is reduced modulo [2^32] into the range
    of [int], so that a value above [INT_MAX] comes out negative. *)
Definition wrap_int (x : Z) : Z :=
  let r := x mod UINT_MOD in
  if r <=? INT_MAX then r else r - UINT_MOD.

End MachInt.

Export MachInt.

(** ** Pointers and the caller's heap *)

(** [void *]: the null pointer, or an offset inside an allocated block. *)
Inductive ptr : Type :=
  | NULL : ptr
  | Ptr (b : Z) (ofs : Z) : ptr.

#[global] Instance ptr_eq_dec : EqDecision ptr.
Proof. solve_decision. Defined.

(** What a block holds: one scalar, or an array of [char]. *)
Inductive cell : Type :=
  | CInt (v : Z)
  | CUInt (v : Z)
  | CFloat (f : spec_float)
  | CDouble (d : spec_float)
  | CChars (cs : list Z).

Record heap : Type := mkHeap {
  blocks : gmap Z cell;
  next_block : Z
}.

(** The pointer comparison [p == q] of C, as an [int]. *)
Definition ptr_eq (p q : ptr) : Z := if decide (p = q) then 1 else 0.

(** [*((const int * )p)] *)
Definition load_int (h : heap) (p : ptr) : option Z :=
  match p with
  | Ptr b 0 =>
      match blocks h !! b with
      | Some (CInt v) => Some v
      | _ => None
      end
  | _ => None
  end.

(** [*((const unsigned int * )p)] *)
Definition load_uint (h : heap) (p : ptr) : option Z :=
  match p with
  | Ptr b 0 =>
      match blocks h !! b with
      | Some (CUInt v) => Some v
      | _ => None
      end
  | _ => None
  end.

(** [*((const float * )p)] *)
Definition load_float (h : heap) (p : ptr) : option spec_float :=
  match p with
  | Ptr b 0 =>
      match blocks h !! b with
      | Some (CFloat f) => Some f
      | _ => None
      end
  | _ => None
  end.

(** [*((const double * )p)] *)
Definition load_double (h : heap) (p : ptr) : option spec_float :=
  match p with
  | Ptr b 0 =>
      match blocks h !! b with
      | Some (CDouble d) => Some d
      | _ => None
      end
  | _ => None
  end.

(** The character array a pointer points into, and the position in it. *)
Definition chars_at (h : heap) (p : ptr) : option (list Z * nat) :=
  match p with
  | Ptr b ofs =>
      match blocks h !! b with
      | Some (CChars cs) =>
          if decide (0 <= ofs <= Z.of_nat (length cs))
          then Some (cs, Z.to_nat ofs) else None
      | _ => None
      end
  | NULL => None
  end.

(** [*p] for a [char *]. *)
Definition load_char (h : heap) (p : ptr) : option Z :=
  '(cs, i) ← chars_at h p; cs !! i.

(** [*p = c] for a [char *]. *)
Definition store_char (h : heap) (p : ptr) (c : Z) : option heap :=
  match p with
  | Ptr b ofs =>
      '(cs, i) ← chars_at h p;
      if decide (i < length cs)%nat
      then Some (mkHeap (<[b := CChars (<[i := c]> cs)]> (blocks h)) (next_block h))
      else None
  | NULL => None
  end.

(** Pointer arithmetic [p + n] on a [char *]. *)
Definition ptr_add (p : ptr) (n : Z) : ptr :=
  match p with
  | Ptr b ofs => Ptr b (ofs + n)
  | NULL => NULL
  end.

(** ** The C library functions the source calls *)

(** [tolower] in the "C" locale, on the value of the character. *)
Definition tolower (c : Z) : Z :=
  if (65 <=? c) && (c <=? 90) then c + 32 else c.

(** The characters of a C string: everything before the first NUL.
    [None] when the array holds no NUL (the read runs off its end). *)
Fixpoint cstring (cs : list Z) : option (list Z) :=
  match cs with
  | [] => None
  | c :: rest => if c =? 0 then Some [] else s ← cstring rest; Some (c :: s)
  end.

(** [strdup]: copies the string, terminator included, into a fresh block;
    [ok] tells whether its [malloc] succeeds, and [NULL] is returned when it
    does not. *)
Definition strdup (ok : bool) (h : heap) (p : ptr) : option (ptr * heap) :=
  '(cs, i) ← chars_at h p;
  s ← cstring (drop i cs);
  if ok
  then Some (Ptr (next_block h) 0,
             mkHeap (<[next_block h := CChars (s ++ [0])]> (blocks h))
                    (next_block h + 1))
  else Some (NULL, h).

(** [strcmp] on the characters from the two positions on: the difference
    of the first two characters that differ, zero when both strings end
    together. *)
Fixpoint strcmp_chars (s1 s2 : list Z) : option Z :=
  match s1, s2 with
  | c1 :: r1, c2 :: r2 =>
      if c1 =? c2
      then (if c1 =? 0 then Some 0 else strcmp_chars r1 r2)
      else Some (c1 - c2)
  | _, _ => None
  end.

Definition strcmp (h : heap) (p q : ptr) : option Z :=
  '(cs1, i) ← chars_at h p;
  '(cs2, j) ← chars_at h q;
  strcmp_chars (drop i cs1) (drop j cs2).

(** ** Comparators (src/map.c, lines 27-112) *)

(** The loop of [str_lower]: [while ( *s ) *s++ = tolower( *s );].  The
    character read is the one at [s] before the increment, and the store
    goes to the same place (the language does not order the read and the
    increment; the loop stops at the terminating NUL of the string either
    way).  One unit of fuel per character of the block that is left; the
    read at the end of the block faults before the fuel can run out. *)
Fixpoint str_lower_loop (fuel : nat) (h : heap) (s : ptr) : option (ptr * heap) :=
  match fuel with
  | O => None
  | S fuel' =>
      c ← load_char h s;
      if c =? 0 then Some (s, h)
      else h' ← store_char h s (tolower c); str_lower_loop fuel' h' (ptr_add s 1)
  end.

(** [char *str_lower(char *s)]: returns [s] as the loop leaves it. *)
Definition str_lower (h : heap) (s : ptr) : option (ptr * heap) :=
  '(cs, i) ← chars_at h s;
  str_lower_loop (S (length cs - i)) h s.

(** [int map_compare_string_keys(const void *key1, const void *key2)] *)
Definition map_compare_string_keys (h : heap) (key1 key2 : ptr) : option Z :=
  strcmp h key1 key2.

(** [int map_compare_string_keys_ignoring_case(const void *key1,
    const void *key2)].  [ok1] and [ok2] are the outcomes of the two
    [strdup] allocations.  The two [if] statements after the comparison
    have empty bodies (the [free] calls are commented out). *)
Definition map_compare_string_keys_ignoring_case
    (ok1 ok2 : bool) (h : heap) (key1 key2 : ptr) : option (Z * heap) :=
  '(string1, h1) ←
    (if decide (key1 = NULL) then Some (key1, h)
     else '(d, h') ← strdup ok1 h key1; str_lower h' d);
  '(string2, h2) ←
    (if decide (key2 = NULL) then Some (key2, h1)
     else '(d, h') ← strdup ok2 h1 key2; str_lower h' d);
  result ← map_compare_string_keys h2 string1 string2;
  Some (result, h2).

(** [int map_compare_int_keys(const void *intPtr1, const void *intPtr2)] *)
Definition map_compare_int_keys (h : heap) (intPtr1 intPtr2 : ptr) : option Z :=
  int1 ← load_int h intPtr1;
  int2 ← load_int h intPtr2;
  Some (if int1 =? int2 then 0 else -1).

(** [int map_compare_uint_keys(const void *uintPtr1, const void *uintPtr2)] *)
Definition map_compare_uint_keys (h : heap) (uintPtr1 uintPtr2 : ptr) : option Z :=
  int1 ← load_uint h uintPtr1;
  int2 ← load_uint h uintPtr2;
  Some (if int1 =? int2 then 0 else -1).

(** [int map_compare_float_keys(const void *floatPtr1, const void *floatPtr2)];
    [==] on floats is IEEE 754 equality, [SFeqb]. *)
Definition map_compare_float_keys (h : heap) (floatPtr1 floatPtr2 : ptr) : option Z :=
  float1 ← load_float h floatPtr1;
  float2 ← load_float h floatPtr2;
  Some (if SFeqb float1 float2 then 0 else -1).

(** [int map_compare_double_keys(const void *doublePtr1, const void *doublePtr2)] *)
Definition map_compare_double_keys (h : heap) (doublePtr1 doublePtr2 : ptr) : option Z :=
  double1 ← load_double h doublePtr1;
  double2 ← load_double h doublePtr2;
  Some (if SFeqb double1 double2 then 0 else -1).

(** [int map_compare_ptr_keys(const void *ptrKey1, const void *ptrKey2)]:
    [return ptrKey1 == ptrKey2;] *)
Definition map_compare_ptr_keys (ptrKey1 ptrKey2 : ptr) : option Z :=
  Some (ptr_eq ptrKey1 ptrKey2).

(** ** The container (src/map.c, lines 6-49 and 114-249) *)

(** [typedef struct { void *key; void *value; } MapEntry;] *)
Record MapEntry : Type := mkEntry {
  key : ptr;
  value : ptr
}.

(** [sizeof(MapEntry)]: two pointers of eight bytes (LP64). *)
Definition sizeof_MapEntry : Z := 16.

(** [MapKeyCompareFunc].  A comparator bound to a map is applied to the
    caller's key data as it stands; [None] is a fault of the comparator. *)
Definition MapKeyCompareFunc : Type := ptr -> ptr -> option Z.

(** [struct MapImpl].  [entries] is the whole allocated array, so its
    length is the number of allocated slots; the slots from [size] on are
    allocated and not yet written.  The [struct Map] header holds the five
    function pointers, set once by [map_create] and never read by the
    functions below. *)
Record MapImpl : Type := mkMap {
  entries : list MapEntry;
  size : Z;
  capacity : Z;
  compare_func : MapKeyCompareFunc
}.

(** A slot that [malloc]/[realloc] handed out and nobody wrote yet. *)
Definition uninit_entry : MapEntry := mkEntry NULL NULL.

(** [entries[index]] for an [int] index. *)
Definition entry_at (es : list MapEntry) (index : Z) : option MapEntry :=
  if decide (0 <= index) then es !! Z.to_nat index else None.

(** The [for] loop of [find_entry_index], [n] iterations left, at [i]. *)
Fixpoint find_loop (impl : MapImpl) (k : ptr) (n : nat) (i : Z) : option Z :=
  match n with
  | O => Some (-1)
  | S n' =>
      e ← entry_at (entries impl) i;
      r ← compare_func impl (key e) k;
      if r =? 0 then to_int i else find_loop impl k n' (to_uint (i + 1))
  end.

(** [static int find_entry_index(Map *map, const void *key)] *)
Definition find_entry_index (impl : MapImpl) (k : ptr) : option Z :=
  find_loop impl k (Z.to_nat (size impl)) 0.

(** [realloc(entries, nbytes)]: the array with room for [nbytes] bytes, its
    old content kept, or a null result when [ok] is false.  A request
    for zero bytes is outside the defined behaviour of [realloc]. *)
Definition realloc_entries (ok : bool) (es : list MapEntry) (nbytes : Z)
    : option (option (list MapEntry)) :=
  if nbytes =? 0 then None
  else if ok
  then Some (Some (resize (Z.to_nat (nbytes / sizeof_MapEntry)) uninit_entry es))
  else Some None.

(** [memmove(&entries[dst], &entries[src], nbytes)] *)
Definition memmove_entries (es : list MapEntry) (dst src nbytes : Z)
    : option (list MapEntry) :=
  let n := nbytes / sizeof_MapEntry in
  if decide (0 <= dst /\ 0 <= src /\
             src + n <= Z.of_nat (length es) /\ dst + n <= Z.of_nat (length es))
  then Some (take (Z.to_nat dst) es ++
             take (Z.to_nat n) (drop (Z.to_nat src) es) ++
             drop (Z.to_nat (dst + n)) es)
  else None.

(** [int map_set(Map *map, void *key, void *value)]; a null [map] is
    [None], and [realloc_ok] is the outcome of the [realloc] call, should
    it be reached.  The result is the returned [int] with the map as the
    call leaves it. *)
Definition map_set (realloc_ok : bool) (map : option MapImpl) (k v : ptr)
    : option (Z * option MapImpl) :=
  match map with
  | None => Some (-1, None)
  | Some impl =>
      index ← find_entry_index impl k;
      if decide (index ≠ -1) then
        e ← entry_at (entries impl) index;
        Some (0, Some (mkMap (<[Z.to_nat index := mkEntry (key e) v]> (entries impl))
                             (size impl) (capacity impl) (compare_func impl)))
      else
        grown ←
          (if size impl >=? capacity impl then
             let new_capacity := to_uint (capacity impl * 2) in
             new_entries ← realloc_entries realloc_ok (entries impl)
                             (to_size_t (sizeof_MapEntry * new_capacity));
             match new_entries with
             | None => Some None
             | Some es => Some (Some (es, new_capacity))
             end
           else Some (Some (entries impl, capacity impl)));
        match grown with
        | None => Some (-1, Some impl)
        | Some (es, cap) =>
            _ ← entry_at es (size impl);
            Some (0, Some (mkMap (<[Z.to_nat (size impl) := mkEntry k v]> es)
                                 (to_uint (size impl + 1)) cap (compare_func impl)))
        end
  end.

(** [void *map_get(Map *map, const void *key)] *)
Definition map_get (map : option MapImpl) (k : ptr) : option ptr :=
  match map with
  | None => Some NULL
  | Some impl =>
      index ← find_entry_index impl k;
      if decide (index ≠ -1) then
        e ← entry_at (entries impl) index; Some (value e)
      else Some NULL
  end.

(** [void map_delete(Map *map, const void *key)]; the result is the map as
    the call leaves it. *)
Definition map_delete (map : option MapImpl) (k : ptr) : option (option MapImpl) :=
  match map with
  | None => Some None
  | Some impl =>
      index ← find_entry_index impl k;
      if decide (index ≠ -1) then
        es ←
          (if to_uint index <? to_uint (size impl - 1) then
             bytes_to_move ←
               to_int (to_size_t (to_uint (size impl - index - 1) * sizeof_MapEntry));
             memmove_entries (entries impl) index (index + 1) (to_size_t bytes_to_move)
           else Some (entries impl));
        Some (Some (mkMap es (to_uint (size impl - 1)) (capacity impl)
                          (compare_func impl)))
      else Some (Some impl)
  end.

(** [int map_get_size(Map *map)] *)
Definition map_get_size (map : option MapImpl) : option Z :=
  match map with
  | None => Some (-1)
  | Some impl => Some (wrap_int (size impl))
  end.


(** What [free] is called on. *)
Inductive released : Type :=
  | FreeEntries (es : list MapEntry)
  | FreeImpl.

(** [void map_free(Map *map)]: the [free] calls it makes, in order. *)
Definition map_free (map : option MapImpl) : list released :=
  match map with
  | None => []
  | Some impl => [FreeEntries (entries impl); FreeImpl]
  end.

(** [Map *map_create(unsigned int initial_capacity, MapKeyCompareFunc
    compare_func)]; [impl_ok] and [entries_ok] are the outcomes of the two
    [malloc] calls, and [None] is the null result. *)
Definition map_create (impl_ok entries_ok : bool) (initial_capacity : Z)
    (cmp : MapKeyCompareFunc) : option MapImpl :=
  let initial_capacity := if initial_capacity =? 0 then 10 else initial_capacity in
  if negb impl_ok then None
  else if negb entries_ok then None
  else Some (mkMap (replicate (Z.to_nat initial_capacity) uninit_entry)
                   0 initial_capacity cmp).

(** * Vocabulary of the properties *)

(** ** Comparators *)

(** [p] and [q] give the same verdict against every stored key. *)
Definition same_key (cmp : MapKeyCompareFunc) (p q : ptr) : Prop :=
  forall e, cmp e p = cmp e q.

(** The four numeric comparators, bound to the caller's data. *)
Definition numeric_comparator (h : heap) (cmp : MapKeyCompareFunc) : Prop :=
  cmp = map_compare_int_keys h \/ cmp = map_compare_uint_keys h \/
  cmp = map_compare_float_keys h \/ cmp = map_compare_double_keys h.

(** The equal signal of a comparator is symmetric, transitive. *)
Definition cmp_symmetric (cmp : MapKeyCompareFunc) : Prop :=
  forall a b, cmp a b = Some 0 -> cmp b a = Some 0.

Definition cmp_transitive (cmp : MapKeyCompareFunc) : Prop :=
  forall a b c, cmp a b = Some 0 -> cmp b c = Some 0 -> cmp a c = Some 0.

(** A comparator of a caller's own, on [int] keys: two keys are equal when
    their values are at most [d] apart. *)
Definition compare_int_keys_within (d : Z) (h : heap) : MapKeyCompareFunc :=
  fun intPtr1 intPtr2 =>
    int1 ← load_int h intPtr1;
    int2 ← load_int h intPtr2;
    Some (if Z.abs (int1 - int2) <=? d then 0 else -1).

(** The case-insensitive comparator as a map calls it, on the caller's
    heap [h]; the blocks a call leaves behind are not kept (no later call
    reads them). *)
Definition ignoring_case_on (h : heap) : MapKeyCompareFunc :=
  fun key1 key2 => fst <$> map_compare_string_keys_ignoring_case true true h key1 key2.

(** ** Strings in the heap *)

(** The lower-cased form of a string, as the header describes it. *)
Definition lowered (s : list Z) : list Z := tolower <$> s.

(** The heap hands out fresh blocks: every block in use lies below
    [next_block]. *)
Definition heap_wf (h : heap) : Prop :=
  forall b, is_Some (blocks h !! b) -> b < next_block h.

(** [p] points to the C string with the characters [s]. *)
Definition string_at (h : heap) (p : ptr) (s : list Z) : Prop :=
  exists cs i, chars_at h p = Some (cs, i) /\ cstring (drop i cs) = Some s.

(** ** The occupied entries and the scan *)

(** Representation invariant: the array has [capacity] slots, [size] of
    which are occupied, and [capacity] is a value of [unsigned int]. *)
Definition wf (impl : MapImpl) : Prop :=
  Z.of_nat (length (entries impl)) = capacity impl /\
  0 <= size impl <= capacity impl /\
  capacity impl < UINT_MOD.

(** The occupied entries, in index order. *)
Definition occupied (impl : MapImpl) : list MapEntry :=
  take (Z.to_nat (size impl)) (entries impl).

(** The linear scan on a list of entries: the position of the first
    entry whose key compares equal to [k], if there is one. *)
Fixpoint scan (cmp : MapKeyCompareFunc) (k : ptr) (es : list MapEntry)
    : option (option nat) :=
  match es with
  | [] => Some None
  | e :: es' =>
      r ← cmp (key e) k;
      if r =? 0 then Some (Some O)
      else match scan cmp k es' with
           | Some o => Some (option_map S o)
           | None => None
           end
  end.

(** The [int] that [find_entry_index] returns for a scan result. *)
Definition index_of (i0 : nat) (o : option nat) : option Z :=
  match o with
  | None => Some (-1)
  | Some j => to_int (Z.of_nat (i0 + j))
  end.

(** The comparator answers for the entry [e] and the key [k], and answers
    "not equal". *)
Definition differs (cmp : MapKeyCompareFunc) (k : ptr) (e : MapEntry) : Prop :=
  exists c, cmp (key e) k = Some c /\ c <> 0.

(** No entry compares equal to a later one (stored key first, as
    [find_entry_index] calls the comparator). *)
Definition distinct (cmp : MapKeyCompareFunc) (es : list MapEntry) : Prop :=
  forall i j ei ej, (i < j)%nat -> es !! i = Some ei -> es !! j = Some ej ->
    cmp (key ei) (key ej) <> Some 0.

(** The invariant the operations maintain. *)
Definition map_inv (impl : MapImpl) : Prop :=
  wf impl /\ distinct (compare_func impl) (occupied impl).

(** What a call of [map_set] on a map does to the occupied entries. *)
Inductive set_outcome (impl : MapImpl) (k v : ptr) (ok : bool)
    : Z -> MapImpl -> Prop :=
  | set_overwrites j e impl' :
      scan (compare_func impl) k (occupied impl) = Some (Some j) ->
      occupied impl !! j = Some e ->
      occupied impl' = <[j := mkEntry (key e) v]> (occupied impl) ->
      size impl' = size impl ->
      capacity impl' = capacity impl ->
      set_outcome impl k v ok 0 impl'
  | set_appends impl' :
      scan (compare_func impl) k (occupied impl) = Some None ->
      occupied impl' = occupied impl ++ [mkEntry k v] ->
      size impl' = size impl + 1 ->
      capacity impl <= capacity impl' ->
      (size impl < capacity impl -> capacity impl' = capacity impl) ->
      set_outcome impl k v ok 0 impl'
  | set_fails :
      scan (compare_func impl) k (occupied impl) = Some None ->
      ok = false ->
      size impl = capacity impl ->
      set_outcome impl k v ok (-1) impl.

(** What a call of [map_delete] on a map does to the occupied entries. *)
Inductive delete_outcome (impl : MapImpl) (k : ptr) : MapImpl -> Prop :=
  | delete_absent :
      scan (compare_func impl) k (occupied impl) = Some None ->
      delete_outcome impl k impl
  | delete_removes j impl' :
      scan (compare_func impl) k (occupied impl) = Some (Some j) ->
      occupied impl' = delete j (occupied impl) ->
      size impl' = size impl - 1 ->
      capacity impl' = capacity impl ->
      delete_outcome impl k impl'.

(** ** Sequences of operations *)

(** The operations on an existing map. *)
Inductive op : Type :=
  | OpSet (realloc_ok : bool) (k v : ptr)
  | OpGet (k : ptr)
  | OpDelete (k : ptr).

(** One operation on the map [impl]; the map it leaves, unless it faults.
    (No operation turns a map reference into a null one.) *)
Definition step (impl : MapImpl) (o : op) : option MapImpl :=
  match o with
  | OpSet ok k v => r ← map_set ok (Some impl) k v; r.2
  | OpGet k => _ ← map_get (Some impl) k; Some impl
  | OpDelete k => r ← map_delete (Some impl) k; r
  end.

Fixpoint run (ops : list op) (impl : MapImpl) : option MapImpl :=
  match ops with
  | [] => Some impl
  | o :: ops' => impl' ← step impl o; run ops' impl'
  end.

(** The set operations of a sequence of key/value pairs, none of which
    meets an allocation failure. *)
Definition set_ops (sets : list (ptr * ptr)) : list op :=
  (fun kv => OpSet true kv.1 kv.2) <$> sets.

(** A sequence of [map_set] calls, each with the outcome its [realloc] has
    if it is reached: the pairs that were set (the calls that returned 0),
    in order, and the map at the end. *)
Fixpoint run_sets (calls : list (bool * ptr * ptr)) (impl : MapImpl)
    : option (list (ptr * ptr) * MapImpl) :=
  match calls with
  | [] => Some ([], impl)
  | (ok, k, v) :: rest =>
      r ← map_set ok (Some impl) k v;
      impl' ← r.2;
      res ← run_sets rest impl';
      Some (if r.1 =? 0 then (k, v) :: res.1 else res.1, res.2)
  end.

(** The most recently set value for [k']: the value of the last pair of the
    sequence whose key compares equal to [k']. *)
Fixpoint latest (cmp : MapKeyCompareFunc) (k' : ptr) (sets : list (ptr * ptr))
    : option ptr :=
  match sets with
  | [] => None
  | (k, v) :: rest =>
      match latest cmp k' rest with
      | Some w => Some w
      | None => if decide (cmp k k' = Some 0) then Some v else None
      end
  end.

(** ** Concrete data *)

(** Strings of the caller: "lu", "Lu", "a" and "b" in blocks 1 to 4, and
    the values "Lu Wang" and "Lucy" of the demonstration program in blocks
    5 and 6. *)
Definition demo_heap : heap :=
  mkHeap (<[1 := CChars [108; 117; 0]]>
         (<[2 := CChars [76; 117; 0]]>
         (<[3 := CChars [97; 0]]>
         (<[4 := CChars [98; 0]]>
         (<[5 := CChars [76; 117; 32; 87; 97; 110; 103; 0]]>
         (<[6 := CChars [76; 117; 99; 121; 0]]> ∅)))))) 7.

(** Scalars of the caller: two [int] objects holding 5 and one holding 7
    (blocks 1 to 3), a [float] NaN and a [float] zero (blocks 4 and 5),
    and an [int] object holding 9 (block 6). *)
Definition num_heap : heap :=
  mkHeap (<[1 := CInt 5]>
         (<[2 := CInt 5]>
         (<[3 := CInt 7]>
         (<[4 := CFloat S754_nan]>
         (<[5 := CFloat (S754_zero false)]>
         (<[6 := CInt 9]> ∅)))))) 7.

(** A map of capacity 2 on [float] keys, as [map_create] returns it. *)
Definition float_map : option MapImpl :=
  map_create true true 2 (map_compare_float_keys num_heap).

(** The [int] map when it is created, after the first, the first two and
    all three of the sets of 5, 7 and 9, and after the deletion of 5. *)
Definition int_map_0 : MapImpl :=
  mkMap [uninit_entry; uninit_entry] 0 2 (map_compare_int_keys num_heap).

Definition int_map_1 : MapImpl :=
  mkMap [mkEntry (Ptr 1 0) (Ptr 10 0); uninit_entry]
        1 2 (map_compare_int_keys num_heap).

Definition int_map_2 : MapImpl :=
  mkMap [mkEntry (Ptr 1 0) (Ptr 10 0); mkEntry (Ptr 3 0) (Ptr 11 0)]
        2 2 (map_compare_int_keys num_heap).

Definition int_map_3 : MapImpl :=
  mkMap [mkEntry (Ptr 1 0) (Ptr 10 0); mkEntry (Ptr 3 0) (Ptr 11 0);
         mkEntry (Ptr 6 0) (Ptr 12 0); uninit_entry]
        3 4 (map_compare_int_keys num_heap).

Definition int_map_4 : MapImpl :=
  mkMap [mkEntry (Ptr 3 0) (Ptr 11 0); mkEntry (Ptr 6 0) (Ptr 12 0);
         mkEntry (Ptr 6 0) (Ptr 12 0); uninit_entry]
        2 4 (map_compare_int_keys num_heap).

(** * Properties *)

(** ** Integer conversions *)

Lemma to_uint_small x : 0 <= x < UINT_MOD -> to_uint x = x.
Proof. intros H. unfold to_uint. apply Z.mod_small. exact H. Qed.

Lemma to_uint_range x : 0 <= to_uint x < UINT_MOD.
Proof. unfold to_uint, UINT_MOD. apply Z.mod_pos_bound. lia. Qed.

Lemma to_size_t_small x : 0 <= x < SIZE_MOD -> to_size_t x = x.
Proof. intros H. unfold to_size_t. apply Z.mod_small. exact H. Qed.

Lemma to_int_small x : INT_MIN <= x <= INT_MAX -> to_int x = Some x.
Proof. intros H. unfold to_int. rewrite decide_True; auto. Qed.

Lemma to_int_Some x r : to_int x = Some r -> r = x /\ INT_MIN <= x <= INT_MAX.
Proof. unfold to_int. case_decide; intros [= <-]; auto. Qed.

(** ** Null map references *)

(** C10: on a null map reference [map_set] returns -1, [map_get] returns
    the null (not-found) result, and [map_delete] and [map_free] do
    nothing; none of them faults. *)
Theorem null_map_operations_total (realloc_ok : bool) (k v : ptr) :
  map_set realloc_ok None k v = Some (-1, None) /\
  map_get None k = Some NULL /\
  map_delete None k = Some None /\
  map_free None = [].
Proof. repeat split. Qed.





(** ** Creation *)

(** C7: [map_create] returns a map of size 0 bound to the comparator, with
    as many entry slots as its capacity, which is the requested capacity,
    or 10 when 0 was requested; when either allocation fails it returns
    no map. *)
Theorem map_create_spec (initial_capacity : Z) (cmp : MapKeyCompareFunc) :
  0 <= initial_capacity < UINT_MOD ->
  (forall impl_ok entries_ok,
     impl_ok && entries_ok = false ->
     map_create impl_ok entries_ok initial_capacity cmp = None) /\
  exists impl,
    map_create true true initial_capacity cmp = Some impl /\
    size impl = 0 /\
    compare_func impl = cmp /\
    capacity impl = (if initial_capacity =? 0 then 10 else initial_capacity) /\
    Z.of_nat (length (entries impl)) = capacity impl /\
    initial_capacity <= capacity impl /\
    1 <= capacity impl.
Proof.
  intros Hrange. split.
  - intros [] [] Hfail; try discriminate Hfail; reflexivity.
  - eexists. split; [reflexivity|]. simpl.
    rewrite length_replicate.
    destruct (Z.eqb_spec initial_capacity 0); repeat split; lia.
Qed.

Lemma map_create_spec_witness :
  exists impl,
    map_create true true 0 map_compare_ptr_keys = Some impl /\
    size impl = 0 /\ capacity impl = 10 /\ length (entries impl) = 10%nat.
Proof.
  destruct (map_create_spec 0 map_compare_ptr_keys) as [_ (impl & Hc & Hs & _ & Hcap & Hlen & _)].
  - unfold UINT_MOD. lia.
  - exists impl. repeat split; auto. simpl in Hcap. lia.
Defined.

(** ** The pointer-identity comparator *)

Lemma map_compare_ptr_keys_zero (p q : ptr) :
  map_compare_ptr_keys p q = Some 0 <-> p <> q.
Proof.
  unfold map_compare_ptr_keys, ptr_eq.
  case_decide; split; intros H'; congruence.
Qed.

(** C3: [map_compare_ptr_keys] returns 1, not the equal signal 0, on one
    and the same location, and 0 on two different locations; a map bound
    to it does not find a key it has just stored, and takes a different
    location for a match. *)
Theorem map_compare_ptr_keys_inverted :
  map_compare_ptr_keys (Ptr 1 0) (Ptr 1 0) = Some 1 /\
  map_compare_ptr_keys (Ptr 1 0) (Ptr 2 0) = Some 0 /\
  (m ← map_set true (map_create true true 2 map_compare_ptr_keys) (Ptr 1 0) (Ptr 7 0);
   map_get m.2 (Ptr 1 0)) = Some NULL /\
  (m ← map_set true (map_create true true 2 map_compare_ptr_keys) (Ptr 1 0) (Ptr 7 0);
   map_get m.2 (Ptr 2 0)) = Some (Ptr 7 0).
Proof. repeat split. Qed.

(** ** Keys that a comparator cannot tell apart *)

Section SameKey.
Context (impl : MapImpl) (p q : ptr).
Hypothesis Hpq : same_key (compare_func impl) p q.

Lemma find_loop_same_key n i : find_loop impl p n i = find_loop impl q n i.
Proof.
  revert i. induction n as [|n IH]; intros i; simpl; [reflexivity|].
  destruct (entry_at (entries impl) i) as [e|]; simpl; [|reflexivity].
  rewrite (Hpq (key e)).
  destruct (compare_func impl (key e) q) as [r|]; simpl; [|reflexivity].
  destruct (r =? 0); [reflexivity|apply IH].
Qed.

Lemma find_entry_index_same_key : find_entry_index impl p = find_entry_index impl q.
Proof. apply find_loop_same_key. Qed.

Lemma map_get_same_key : map_get (Some impl) p = map_get (Some impl) q.
Proof. simpl. rewrite find_entry_index_same_key. reflexivity. Qed.

Lemma map_delete_same_key : map_delete (Some impl) p = map_delete (Some impl) q.
Proof. simpl. rewrite find_entry_index_same_key. reflexivity. Qed.

(** [map_set] overwrites the same entry for both keys when there is one;
    when there is none the two calls differ in the reference they store
    and in nothing else, so they return the same [int]. *)
Lemma map_set_same_key ok v :
  fst <$> map_set ok (Some impl) p v = fst <$> map_set ok (Some impl) q v /\
  (find_entry_index impl p ≠ Some (-1) ->
   map_set ok (Some impl) p v = map_set ok (Some impl) q v).
Proof.
  simpl. rewrite find_entry_index_same_key.
  destruct (find_entry_index impl q) as [index|]; simpl; [|split; reflexivity].
  case_decide as Hidx.
  - split; reflexivity.
  - split; [|intros Hne; exfalso; apply Hne; f_equal; lia].
    destruct (size impl >=? capacity impl); simpl.
    + destruct (realloc_entries _ _ _) as [[es|]|]; simpl; try reflexivity.
      destruct (entry_at es (size impl)); reflexivity.
    + destruct (entry_at (entries impl) (size impl)); reflexivity.
Qed.
End SameKey.

(** ** The numeric comparators *)

(** IEEE equality holds between a value and itself, unless it is a NaN,
    and between the two zeros. *)
Lemma SFeqb_true_inv (a b : spec_float) :
  SFeqb a b = true ->
  a = b \/ exists s1 s2, a = S754_zero s1 /\ b = S754_zero s2.
Proof.
  unfold SFeqb.
  destruct a as [s1| [] | |s1 m1 e1], b as [s2| [] | |s2 m2 e2]; simpl;
    try discriminate; eauto;
    try (destruct s1; discriminate); try (destruct s2; discriminate).
  change (PosDef.Pos.compare_cont Eq m1 m2) with (Pos.compare m1 m2).
  destruct s1, s2; try discriminate;
    destruct (Z.compare_spec e1 e2) as [He| |]; try discriminate;
    destruct (Pos.compare_spec m1 m2) as [Hm| |]; simpl; try discriminate;
    subst; auto.
Qed.

Lemma SFeqb_congr_r (a b c : spec_float) :
  SFeqb a b = true -> SFeqb c a = SFeqb c b.
Proof.
  intros H. destruct (SFeqb_true_inv a b H) as [->|(s1 & s2 & -> & ->)];
    [reflexivity|].
  destruct c; reflexivity.
Qed.

Section NumericComparators.
Context (h : heap).

Lemma map_compare_int_keys_result p q a b :
  load_int h p = Some a -> load_int h q = Some b ->
  map_compare_int_keys h p q = Some (if a =? b then 0 else -1).
Proof. intros Ha Hb. unfold map_compare_int_keys. rewrite Ha, Hb. reflexivity. Qed.

Lemma map_compare_uint_keys_result p q a b :
  load_uint h p = Some a -> load_uint h q = Some b ->
  map_compare_uint_keys h p q = Some (if a =? b then 0 else -1).
Proof. intros Ha Hb. unfold map_compare_uint_keys. rewrite Ha, Hb. reflexivity. Qed.

Lemma map_compare_float_keys_result p q a b :
  load_float h p = Some a -> load_float h q = Some b ->
  map_compare_float_keys h p q = Some (if SFeqb a b then 0 else -1).
Proof. intros Ha Hb. unfold map_compare_float_keys. rewrite Ha, Hb. reflexivity. Qed.

Lemma map_compare_double_keys_result p q a b :
  load_double h p = Some a -> load_double h q = Some b ->
  map_compare_double_keys h p q = Some (if SFeqb a b then 0 else -1).
Proof. intros Ha Hb. unfold map_compare_double_keys. rewrite Ha, Hb. reflexivity. Qed.

Lemma map_compare_int_keys_same_key p q :
  map_compare_int_keys h p q = Some 0 -> same_key (map_compare_int_keys h) p q.
Proof.
  unfold map_compare_int_keys. intros H e.
  destruct (load_int h p) as [a|]; [|discriminate].
  destruct (load_int h q) as [b|]; [|discriminate]. simpl in *.
  destruct (Z.eqb_spec a b) as [->|]; [reflexivity|discriminate].
Qed.

Lemma map_compare_uint_keys_same_key p q :
  map_compare_uint_keys h p q = Some 0 -> same_key (map_compare_uint_keys h) p q.
Proof.
  unfold map_compare_uint_keys. intros H e.
  destruct (load_uint h p) as [a|]; [|discriminate].
  destruct (load_uint h q) as [b|]; [|discriminate]. simpl in *.
  destruct (Z.eqb_spec a b) as [->|]; [reflexivity|discriminate].
Qed.

Lemma map_compare_float_keys_same_key p q :
  map_compare_float_keys h p q = Some 0 -> same_key (map_compare_float_keys h) p q.
Proof.
  unfold map_compare_float_keys. intros H e.
  destruct (load_float h p) as [a|]; [|discriminate].
  destruct (load_float h q) as [b|]; [|discriminate]. simpl in *.
  destruct (SFeqb a b) eqn:Hab; [|discriminate].
  destruct (load_float h e) as [x|]; simpl; [|reflexivity].
  rewrite (SFeqb_congr_r a b x Hab). reflexivity.
Qed.

Lemma map_compare_double_keys_same_key p q :
  map_compare_double_keys h p q = Some 0 -> same_key (map_compare_double_keys h) p q.
Proof.
  unfold map_compare_double_keys. intros H e.
  destruct (load_double h p) as [a|]; [|discriminate].
  destruct (load_double h q) as [b|]; [|discriminate]. simpl in *.
  destruct (SFeqb a b) eqn:Hab; [|discriminate].
  destruct (load_double h e) as [x|]; simpl; [|reflexivity].
  rewrite (SFeqb_congr_r a b x Hab). reflexivity.
Qed.
End NumericComparators.

Lemma numeric_comparator_same_key h cmp p q :
  numeric_comparator h cmp -> cmp p q = Some 0 -> same_key cmp p q.
Proof.
  intros [-> | [-> | [-> | ->]]];
    auto using map_compare_int_keys_same_key, map_compare_uint_keys_same_key,
               map_compare_float_keys_same_key, map_compare_double_keys_same_key.
Qed.


(** ** The case-insensitive string comparator *)

Lemma cstring_split cs s :
  cstring cs = Some s ->
  exists tl, cs = s ++ 0 :: tl /\ Forall (fun c => c <> 0) s.
Proof.
  revert s. induction cs as [|c cs IH]; intros s; simpl; [discriminate|].
  destruct (Z.eqb_spec c 0) as [->|Hc].
  - intros [= <-]. exists cs. split; [reflexivity|constructor].
  - destruct (cstring cs) as [t|]; simpl; [|discriminate].
    intros [= <-]. destruct (IH t eq_refl) as (tl & -> & Hall).
    exists tl. split; [reflexivity|constructor; assumption].
Qed.

Section BlockAccess.
Context (h : heap) (nb : Z) (cs : list Z) (i : nat).
Hypothesis Hb : blocks h !! nb = Some (CChars cs).

Lemma chars_at_block :
  (i <= length cs)%nat -> chars_at h (Ptr nb (Z.of_nat i)) = Some (cs, i).
Proof.
  intros Hi. unfold chars_at. rewrite Hb.
  rewrite decide_True by lia. rewrite Nat2Z.id. reflexivity.
Qed.

Lemma load_char_block c :
  cs !! i = Some c -> load_char h (Ptr nb (Z.of_nat i)) = Some c.
Proof.
  intros Hc. unfold load_char.
  rewrite chars_at_block by (apply lookup_lt_Some in Hc; lia). exact Hc.
Qed.

Lemma store_char_block c :
  (i < length cs)%nat ->
  store_char h (Ptr nb (Z.of_nat i)) c =
  Some (mkHeap (<[nb := CChars (<[i := c]> cs)]> (blocks h)) (next_block h)).
Proof.
  intros Hi. unfold store_char. rewrite chars_at_block by lia. simpl.
  rewrite decide_True by exact Hi. reflexivity.
Qed.
End BlockAccess.

Lemma str_lower_loop_S fuel h s :
  str_lower_loop (S fuel) h s =
  (c ← load_char h s;
   if c =? 0 then Some (s, h)
   else h' ← store_char h s (tolower c); str_lower_loop fuel h' (ptr_add s 1)).
Proof. reflexivity. Qed.

(** On a block that holds a string at the position of [s], the loop of
    [str_lower] lower-cases the string in place and ends on its NUL. *)
Lemma str_lower_loop_spec rest :
  forall pre tl h nb fuel,
    blocks h !! nb = Some (CChars (pre ++ rest ++ 0 :: tl)) ->
    Forall (fun c => c <> 0) rest ->
    (length rest < fuel)%nat ->
    str_lower_loop fuel h (Ptr nb (Z.of_nat (length pre))) =
    Some (Ptr nb (Z.of_nat (length pre + length rest)),
          mkHeap (<[nb := CChars (pre ++ lowered rest ++ 0 :: tl)]> (blocks h))
                 (next_block h)).
Proof.
  induction rest as [|c rest IH]; intros pre tl h nb fuel Hb Hnz Hfuel;
    (destruct fuel as [|fuel]; [simpl in Hfuel; lia|]);
    rewrite str_lower_loop_S.
  - rewrite (load_char_block h nb _ (length pre) Hb 0)
      by (rewrite lookup_app_r by lia; rewrite Nat.sub_diag; reflexivity).
    simpl. rewrite Nat.add_0_r. destruct h as [bs nx]. simpl in *.
    rewrite insert_id by exact Hb. reflexivity.
  - apply Forall_cons in Hnz as [Hc Hnz].
    rewrite (load_char_block h nb _ (length pre) Hb c)
      by (rewrite lookup_app_r by lia; rewrite Nat.sub_diag; reflexivity).
    cbn [mbind option_bind].
    destruct (Z.eqb_spec c 0) as [|_]; [contradiction|].
    rewrite (store_char_block h nb _ (length pre) Hb)
      by (rewrite length_app; simpl; lia).
    cbn [mbind option_bind ptr_add].
    replace (<[length pre := tolower c]> (pre ++ c :: rest ++ 0 :: tl))
      with ((pre ++ [tolower c]) ++ rest ++ 0 :: tl).
    2:{ rewrite insert_app_r_alt by lia. rewrite Nat.sub_diag. simpl.
        rewrite <- app_assoc. reflexivity. }
    replace (Z.of_nat (length pre) + 1) with (Z.of_nat (length (pre ++ [tolower c])))
      by (rewrite length_app; simpl; lia).
    rewrite (IH (pre ++ [tolower c]) tl _ nb fuel);
      [|simpl; apply lookup_insert_eq|exact Hnz|simpl in Hfuel; lia].
    simpl. rewrite insert_insert_eq. rewrite length_app. simpl.
    rewrite <- app_assoc. simpl.
    replace (length pre + 1 + length rest)%nat with (length pre + S (length rest))%nat
      by lia.
    reflexivity.
Qed.

Lemma strdup_str_lower h p s :
  string_at h p s ->
  ('(d, h') ← strdup true h p; str_lower h' d) =
  Some (Ptr (next_block h) (Z.of_nat (length s)),
        mkHeap (<[next_block h := CChars (lowered s ++ [0])]> (blocks h))
               (next_block h + 1)).
Proof.
  intros (cs & i & Hat & Hs). unfold strdup. rewrite Hat.
  cbn [mbind option_bind]. rewrite Hs. cbn [mbind option_bind].
  destruct (cstring_split _ _ Hs) as (tl & _ & Hnz).
  set (h1 := mkHeap (<[next_block h := CChars (s ++ [0])]> (blocks h))
                    (next_block h + 1)).
  assert (blocks h1 !! next_block h = Some (CChars (s ++ [0]))) as Hb
    by apply lookup_insert_eq.
  unfold str_lower.
  change (Ptr (next_block h) 0) with (Ptr (next_block h) (Z.of_nat 0)).
  rewrite (chars_at_block h1 (next_block h) _ 0%nat Hb) by lia.
  cbn [mbind option_bind].
  rewrite (str_lower_loop_spec s [] [] h1 (next_block h)); [| exact Hb | exact Hnz |].
  - unfold h1. simpl. rewrite insert_insert_eq. reflexivity.
  - rewrite length_app. simpl. lia.
Qed.

Lemma string_at_fresh h p s c n :
  heap_wf h -> string_at h p s ->
  string_at (mkHeap (<[next_block h := c]> (blocks h)) n) p s.
Proof.
  intros Hwf (cs & i & Hat & Hs). exists cs, i. split; [|exact Hs].
  destruct p as [|b ofs]; [discriminate|]. unfold chars_at in *. simpl.
  destruct (blocks h !! b) as [cl|] eqn:Hb; [|discriminate].
  assert (b < next_block h) as Hlt by (apply Hwf; rewrite Hb; eauto).
  rewrite lookup_insert_ne by lia. rewrite Hb. exact Hat.
Qed.

(** Whatever the two strings are, the comparator returns 0; the blocks
    that existed before the call are left as they were. *)
Lemma map_compare_string_keys_ignoring_case_zero h key1 key2 s1 s2 :
  heap_wf h -> string_at h key1 s1 -> string_at h key2 s2 ->
  exists h',
    map_compare_string_keys_ignoring_case true true h key1 key2 = Some (0, h') /\
    forall b, b < next_block h -> blocks h' !! b = blocks h !! b.
Proof.
  intros Hwf H1 H2. unfold map_compare_string_keys_ignoring_case.
  assert (key1 <> NULL) as Hn1 by (destruct H1 as (? & ? & Hat & _); intros ->; discriminate).
  assert (key2 <> NULL) as Hn2 by (destruct H2 as (? & ? & Hat & _); intros ->; discriminate).
  rewrite decide_False by exact Hn1. rewrite (strdup_str_lower h key1 s1 H1).
  cbn [mbind option_bind]. rewrite decide_False by exact Hn2.
  set (nb := next_block h).
  set (h1 := mkHeap (<[nb := CChars (lowered s1 ++ [0])]> (blocks h)) (nb + 1)).
  rewrite (strdup_str_lower h1 key2 s2) by (apply string_at_fresh; assumption).
  cbn [mbind option_bind]. simpl next_block. simpl blocks.
  set (h2 := mkHeap _ _).
  assert (blocks h2 !! nb = Some (CChars (lowered s1 ++ [0]))) as Hb1.
  { unfold h2. simpl. rewrite lookup_insert_ne by lia. apply lookup_insert_eq. }
  assert (blocks h2 !! (nb + 1) = Some (CChars (lowered s2 ++ [0]))) as Hb2.
  { unfold h2. simpl. apply lookup_insert_eq. }
  unfold map_compare_string_keys, strcmp.
  rewrite (chars_at_block h2 nb _ (length s1) Hb1)
    by (rewrite length_app; unfold lowered; rewrite length_fmap; lia).
  cbn [mbind option_bind].
  rewrite (chars_at_block h2 (nb + 1) _ (length s2) Hb2)
    by (rewrite length_app; unfold lowered; rewrite length_fmap; lia).
  cbn [mbind option_bind].
  rewrite !drop_app_length' by (unfold lowered; rewrite length_fmap; reflexivity).
  exists h2. split; [reflexivity|].
  intros b Hlt. unfold h2. simpl. rewrite !lookup_insert_ne by (unfold nb; lia).
  reflexivity.
Qed.


(** C2: on the keys "a" and "b", whose lower-cased forms differ,
    [map_compare_string_keys_ignoring_case] returns the equal signal 0:
    [str_lower] hands back the end of each lower-cased copy, so two empty
    strings are compared.  The caller's two strings are as they were. *)
Theorem map_compare_string_keys_ignoring_case_a_b :
  (s1 ← chars_at demo_heap (Ptr 3 0); cstring s1.1) = Some [97] /\
  (s2 ← chars_at demo_heap (Ptr 4 0); cstring s2.1) = Some [98] /\
  lowered [97] <> lowered [98] /\
  exists h',
    map_compare_string_keys_ignoring_case true true demo_heap (Ptr 3 0) (Ptr 4 0)
      = Some (0, h') /\
    blocks h' !! 3 = blocks demo_heap !! 3 /\
    blocks h' !! 4 = blocks demo_heap !! 4.
Proof.
  split; [reflexivity|]. split; [reflexivity|]. split; [discriminate|].
  eexists. split; [vm_compute; reflexivity|]. split; reflexivity.
Qed.

(** ** Allocation failure in [map_set] *)

(** C6: when the key is new, the map is full and [realloc] fails,
    [map_set] returns -1 and leaves the map as it was: same entries, same
    size, same capacity. *)
Theorem map_set_realloc_failure (impl : MapImpl) (k v : ptr) :
  find_entry_index impl k = Some (-1) ->
  size impl = capacity impl ->
  to_uint (capacity impl * 2) <> 0 ->
  map_set false (Some impl) k v = Some (-1, Some impl).
Proof.
  intros Hfind Hfull Hnz. simpl. rewrite Hfind. simpl.
  replace (size impl >=? capacity impl) with true
    by (symmetry; apply Z.geb_le; lia).
  unfold realloc_entries.
  pose proof (to_uint_range (capacity impl * 2)) as Hr.
  rewrite to_size_t_small by (unfold sizeof_MapEntry, SIZE_MOD, UINT_MOD in *; lia).
  destruct (Z.eqb_spec (sizeof_MapEntry * to_uint (capacity impl * 2)) 0)
    as [Hz|_]; [unfold sizeof_MapEntry in Hz; lia|].
  reflexivity.
Qed.

(** ** The container seen as a list of occupied entries *)

Section Scan.
Context (impl : MapImpl) (k : ptr).

Lemma find_loop_scan n i0 :
  (i0 + n <= length (entries impl))%nat ->
  Z.of_nat (i0 + n) < UINT_MOD ->
  find_loop impl k n (Z.of_nat i0) =
  scan (compare_func impl) k (take n (drop i0 (entries impl))) ≫= index_of i0.
Proof.
  revert i0. induction n as [|n IH]; intros i0 Hlen Hmax; [reflexivity|].
  destruct (lookup_lt_is_Some_2 (entries impl) i0 ltac:(lia)) as [e He].
  rewrite (drop_S _ _ _ He). simpl.
  unfold entry_at. rewrite decide_True by lia. rewrite Nat2Z.id, He. simpl.
  destruct (compare_func impl (key e) k) as [r|]; simpl; [|reflexivity].
  destruct (r =? 0); simpl.
  - rewrite Nat.add_0_r. reflexivity.
  - replace (to_uint (Z.of_nat i0 + 1)) with (Z.of_nat (S i0))
      by (rewrite to_uint_small; lia).
    rewrite IH by lia.
    destruct (scan _ _ _) as [[j|]|]; simpl; try reflexivity.
    rewrite Nat.add_succ_r. reflexivity.
Qed.

Lemma find_entry_index_scan :
  wf impl ->
  find_entry_index impl k = scan (compare_func impl) k (occupied impl) ≫= index_of 0.
Proof.
  intros (Hlen & Hsize & Hcap). unfold find_entry_index, occupied.
  rewrite (find_loop_scan _ 0%nat) by (simpl; lia). reflexivity.
Qed.
End Scan.

Section ScanFacts.
Context (cmp : MapKeyCompareFunc) (k : ptr).

Lemma scan_found es j :
  scan cmp k es = Some (Some j) <->
  exists e, es !! j = Some e /\ cmp (key e) k = Some 0 /\
            forall i e', (i < j)%nat -> es !! i = Some e' -> differs cmp k e'.
Proof.
  revert j. induction es as [|e0 es IH]; intros j; simpl.
  - split; [discriminate|]. intros (e & He & _). discriminate.
  - destruct (cmp (key e0) k) as [r|] eqn:Hr; simpl.
    + destruct (Z.eqb_spec r 0) as [->|Hne].
      * split.
        -- intros [= <-]. exists e0. repeat split; auto. intros i e' Hi. lia.
        -- intros (e & He & Hc & Hbefore). destruct j as [|j]; [reflexivity|].
           destruct (Hbefore 0%nat e0 ltac:(lia) eq_refl) as (c & Hc' & Hne).
           congruence.
      * destruct (scan cmp k es) as [[j'|]|] eqn:Hs; simpl.
        -- split.
           ++ intros [= <-]. destruct (proj1 (IH j') eq_refl) as (e & He & Hc & Hb).
              exists e. repeat split; auto. intros [|i] e' Hi He'.
              ** injection He' as <-. exists r. auto.
              ** apply (Hb i); [lia|exact He'].
           ++ intros (e & He & Hc & Hb). destruct j as [|j].
              ** injection He as <-. congruence.
              ** f_equal. f_equal.
                 assert (Some (Some j') = Some (Some j)) as [= ->]; [|reflexivity].
                 apply IH. exists e. repeat split; auto.
                 intros i e' Hi He'. apply (Hb (S i)); [lia|exact He'].
        -- split; [discriminate|]. intros (e & He & Hc & Hb). destruct j as [|j].
           ++ injection He as <-. congruence.
           ++ assert (Some None = Some (Some j)) as [=]. apply (IH j).
              exists e. repeat split; auto.
              intros i e' Hi He'. apply (Hb (S i)); [lia|exact He'].
        -- split; [discriminate|]. intros (e & He & Hc & Hb). destruct j as [|j].
           ++ injection He as <-. congruence.
           ++ assert (@None (option nat) = Some (Some j)) as [=]. apply (IH j).
              exists e. repeat split; auto.
              intros i e' Hi He'. apply (Hb (S i)); [lia|exact He'].
    + split; [discriminate|]. intros (e & He & Hc & Hb). destruct j as [|j].
      * injection He as <-. congruence.
      * destruct (Hb 0%nat e0 ltac:(lia) eq_refl) as (c & Hc' & _). congruence.
Qed.

Lemma scan_none es :
  scan cmp k es = Some None <-> forall i e', es !! i = Some e' -> differs cmp k e'.
Proof.
  induction es as [|e0 es IH]; simpl.
  - split; [intros _ i e'; discriminate|reflexivity].
  - destruct (cmp (key e0) k) as [r|] eqn:Hr; simpl.
    + destruct (Z.eqb_spec r 0) as [->|Hne].
      * split; [discriminate|]. intros H.
        destruct (H 0%nat e0 eq_refl) as (c & Hc & Hne). congruence.
      * destruct (scan cmp k es) as [[j'|]|] eqn:Hs; simpl.
        -- split; [discriminate|]. intros H.
           assert (Some (Some j') = Some None) as [=]. apply IH.
           intros i e' He'. apply (H (S i)). exact He'.
        -- split; [|reflexivity]. intros _ [|i] e' He'.
           ++ injection He' as <-. exists r. auto.
           ++ apply (proj1 IH eq_refl i). exact He'.
        -- split; [discriminate|]. intros H.
           assert (@None (option nat) = Some None) as [=]. apply IH.
           intros i e' He'. apply (H (S i)). exact He'.
    + split; [discriminate|]. intros H.
      destruct (H 0%nat e0 eq_refl) as (c & Hc & _). congruence.
Qed.

Lemma scan_found_lt es j : scan cmp k es = Some (Some j) -> (j < length es)%nat.
Proof.
  intros H. apply scan_found in H as (e & He & _).
  apply lookup_lt_Some in He. exact He.
Qed.

(** The scan reads keys only. *)
Lemma scan_keys es1 es2 :
  key <$> es1 = key <$> es2 -> scan cmp k es1 = scan cmp k es2.
Proof.
  revert es2. induction es1 as [|e1 es1 IH]; intros [|e2 es2] Hk;
    try discriminate; [reflexivity|].
  simpl in Hk. injection Hk as Hk1 Hk2. simpl. rewrite Hk1, (IH es2 Hk2).
  reflexivity.
Qed.
End ScanFacts.

(** ** The operations on the occupied entries *)

Section Operations.
Context (impl : MapImpl) (k : ptr).
Hypothesis Hwf : wf impl.

Lemma occupied_length : length (occupied impl) = Z.to_nat (size impl).
Proof.
  destruct Hwf as (Hlen & Hsize & _). unfold occupied.
  rewrite length_take. lia.
Qed.

Lemma occupied_lookup j e :
  occupied impl !! j = Some e <->
  (j < Z.to_nat (size impl))%nat /\ entries impl !! j = Some e.
Proof.
  unfold occupied. rewrite lookup_take_Some. tauto.
Qed.

Lemma find_entry_index_notfound :
  scan (compare_func impl) k (occupied impl) = Some None ->
  find_entry_index impl k = Some (-1).
Proof. intros Hs. rewrite find_entry_index_scan, Hs by exact Hwf. reflexivity. Qed.

Lemma find_entry_index_found j :
  scan (compare_func impl) k (occupied impl) = Some (Some j) ->
  Z.of_nat j <= INT_MAX ->
  find_entry_index impl k = Some (Z.of_nat j).
Proof.
  intros Hs Hj. rewrite find_entry_index_scan, Hs by exact Hwf. simpl.
  apply to_int_small. unfold INT_MIN. lia.
Qed.

Lemma find_entry_index_inv idx :
  find_entry_index impl k = Some idx ->
  (idx = -1 /\ scan (compare_func impl) k (occupied impl) = Some None) \/
  (exists j, idx = Z.of_nat j /\ idx <= INT_MAX /\
             scan (compare_func impl) k (occupied impl) = Some (Some j)).
Proof.
  rewrite find_entry_index_scan by exact Hwf.
  destruct (scan _ _ _) as [[j|]|]; simpl; try discriminate.
  - intros Hi. apply to_int_Some in Hi as [-> Hr]. right. exists j.
    repeat split; auto; lia.
  - intros [= <-]. left. auto.
Qed.

Lemma entry_at_occupied j e :
  occupied impl !! j = Some e -> entry_at (entries impl) (Z.of_nat j) = Some e.
Proof.
  intros He. apply occupied_lookup in He as [_ He].
  unfold entry_at. rewrite decide_True by lia. rewrite Nat2Z.id. exact He.
Qed.

Lemma map_get_notfound :
  scan (compare_func impl) k (occupied impl) = Some None ->
  map_get (Some impl) k = Some NULL.
Proof. intros Hs. simpl. rewrite (find_entry_index_notfound Hs). reflexivity. Qed.

Lemma map_get_found j e :
  scan (compare_func impl) k (occupied impl) = Some (Some j) ->
  occupied impl !! j = Some e ->
  Z.of_nat j <= INT_MAX ->
  map_get (Some impl) k = Some (value e).
Proof.
  intros Hs He Hj. simpl. rewrite (find_entry_index_found j Hs Hj). simpl.
  rewrite decide_True by lia. rewrite (entry_at_occupied j e He). reflexivity.
Qed.

Lemma map_get_inv r :
  map_get (Some impl) k = Some r ->
  (r = NULL /\ scan (compare_func impl) k (occupied impl) = Some None) \/
  (exists j e, scan (compare_func impl) k (occupied impl) = Some (Some j) /\
               occupied impl !! j = Some e /\ r = value e).
Proof.
  simpl. destruct (find_entry_index impl k) as [idx|] eqn:Hf; [|discriminate].
  apply find_entry_index_inv in Hf as [[-> Hs]|(j & -> & Hj & Hs)]; simpl.
  - intros [= <-]. left. auto.
  - rewrite decide_True by lia.
    pose proof (scan_found_lt _ _ _ _ Hs) as Hlt.
    destruct (lookup_lt_is_Some_2 _ _ Hlt) as [e He].
    rewrite (entry_at_occupied j e He). simpl. intros [= <-].
    right. exists j, e. auto.
Qed.
End Operations.

Section SetInversion.
Context (impl : MapImpl) (k v : ptr) (ok : bool).
Hypothesis Hwf : wf impl.

Lemma map_set_inv r impl' :
  map_set ok (Some impl) k v = Some (r, Some impl') ->
  compare_func impl' = compare_func impl /\ wf impl' /\
  set_outcome impl k v ok r impl'.
Proof.
  pose proof Hwf as (Hlen & Hsize & Hcap).
  simpl. destruct (find_entry_index impl k) as [idx|] eqn:Hf; [|discriminate].
  apply (find_entry_index_inv impl k Hwf) in Hf as [[-> Hs]|(j & -> & Hj & Hs)]; simpl.
  - (* the key is new *)
    destruct (Z.geb_spec (size impl) (capacity impl)) as [Hfull|Hroom]; simpl.
    + unfold realloc_entries.
      pose proof (to_uint_range (capacity impl * 2)) as Hnc.
      set (nc := to_uint (capacity impl * 2)) in *.
      rewrite to_size_t_small
        by (unfold sizeof_MapEntry, SIZE_MOD, UINT_MOD in *; lia).
      destruct (Z.eqb_spec (sizeof_MapEntry * nc) 0) as [|Hnz]; [discriminate|].
      destruct ok; simpl.
      * replace (sizeof_MapEntry * nc / sizeof_MapEntry) with nc
          by (unfold sizeof_MapEntry; rewrite Z.mul_comm, Z.div_mul; lia).
        unfold entry_at. rewrite decide_True by lia.
        destruct (resize (Z.to_nat nc) uninit_entry (entries impl) !! Z.to_nat (size impl))
          as [e0|] eqn:He0; [|discriminate].
        simpl. intros [= <- <-].
        apply lookup_lt_Some in He0. rewrite length_resize in He0.
        assert (size impl = capacity impl) as Hsc by lia.
        assert (to_uint (size impl + 1) = size impl + 1) as Hs1
          by (apply to_uint_small; lia).
        split; [reflexivity|]. split.
        -- unfold wf. simpl. rewrite length_insert, length_resize. lia.
        -- apply set_appends; simpl; auto; try lia.
           unfold occupied. simpl. rewrite Hs1.
           replace (Z.to_nat (size impl + 1)) with (S (Z.to_nat (size impl))) by lia.
           rewrite (take_S_r _ _ (mkEntry k v)).
           ++ rewrite take_insert_ge by lia.
              rewrite resize_ge by lia. rewrite take_app_le by lia. reflexivity.
           ++ apply list_lookup_insert_eq. rewrite length_resize. lia.
      * intros [= <- <-]. split; [reflexivity|]. split; [exact Hwf|].
        apply set_fails; auto. lia.
    + unfold entry_at. rewrite decide_True by lia.
      destruct (entries impl !! Z.to_nat (size impl)) as [e0|] eqn:He0; [|discriminate].
      simpl. intros [= <- <-].
      assert (to_uint (size impl + 1) = size impl + 1) as Hs1
        by (apply to_uint_small; lia).
      split; [reflexivity|]. split.
      * unfold wf. simpl. rewrite length_insert. lia.
      * apply set_appends; simpl; auto; try lia.
        unfold occupied. simpl. rewrite Hs1.
        replace (Z.to_nat (size impl + 1)) with (S (Z.to_nat (size impl))) by lia.
        rewrite (take_S_r _ _ (mkEntry k v)).
        -- rewrite take_insert_ge by lia. reflexivity.
        -- apply list_lookup_insert_eq. lia.
  - (* the key is there, at index [j] *)
    rewrite decide_True by lia.
    pose proof (scan_found_lt _ _ _ _ Hs) as Hlt.
    destruct (lookup_lt_is_Some_2 _ _ Hlt) as [e He].
    rewrite (entry_at_occupied impl j e He). simpl. intros [= <- <-].
    rewrite (occupied_length impl Hwf) in Hlt.
    split; [reflexivity|]. split.
    + unfold wf. simpl. rewrite length_insert. lia.
    + apply (set_overwrites _ _ _ _ j e); simpl; auto.
      unfold occupied. simpl. rewrite Nat2Z.id. apply take_insert_lt. exact Hlt.
Qed.
End SetInversion.

Section DeleteInversion.
Context (impl : MapImpl) (k : ptr).
Hypothesis Hwf : wf impl.

Lemma delete_occupied (es : list MapEntry) (j n : nat) :
  (S j <= n)%nat -> (n <= length es)%nat ->
  take (n - 1) (take j es ++ take (n - j - 1) (drop (S j) es) ++ drop (n - 1) es)
  = delete j (take n es).
Proof.
  intros Hj Hn. rewrite delete_take_drop, take_take.
  replace (j `min` n)%nat with j by lia.
  rewrite app_assoc, take_app_le
    by (rewrite length_app, !length_take, length_drop; lia).
  rewrite take_ge by (rewrite length_app, !length_take, length_drop; lia).
  f_equal. rewrite take_drop_commute. f_equal. f_equal. lia.
Qed.

Lemma map_delete_inv impl' :
  map_delete (Some impl) k = Some (Some impl') ->
  compare_func impl' = compare_func impl /\ wf impl' /\
  delete_outcome impl k impl'.
Proof.
  pose proof Hwf as (Hlen & Hsize & Hcap).
  simpl. destruct (find_entry_index impl k) as [idx|] eqn:Hf; [|discriminate].
  apply (find_entry_index_inv impl k Hwf) in Hf as [[-> Hs]|(j & -> & Hj & Hs)]; simpl.
  - intros [= <-]. split; [reflexivity|]. split; [exact Hwf|].
    apply delete_absent. exact Hs.
  - rewrite decide_True by lia.
    pose proof (scan_found_lt _ _ _ _ Hs) as Hlt.
    rewrite (occupied_length impl Hwf) in Hlt.
    rewrite (to_uint_small (Z.of_nat j)) by lia.
    rewrite (to_uint_small (size impl - 1)) by lia.
    destruct (Z.ltb_spec (Z.of_nat j) (size impl - 1)) as [Hmid|Hlast]; simpl.
    + rewrite (to_uint_small (size impl - Z.of_nat j - 1)) by lia.
      rewrite to_size_t_small
        by (unfold sizeof_MapEntry, SIZE_MOD, UINT_MOD in *; lia).
      destruct (to_int _) as [b|] eqn:Hb; [|discriminate]. simpl.
      apply to_int_Some in Hb as [-> Hb].
      rewrite to_size_t_small
        by (unfold sizeof_MapEntry, SIZE_MOD, UINT_MOD in *; lia).
      unfold memmove_entries.
      replace ((size impl - Z.of_nat j - 1) * sizeof_MapEntry / sizeof_MapEntry)
        with (size impl - Z.of_nat j - 1)
        by (unfold sizeof_MapEntry; rewrite Z.div_mul; lia).
      rewrite decide_True by lia. simpl. intros [= <-].
      split; [reflexivity|]. split.
      * unfold wf. simpl.
        rewrite !length_app, !length_take, !length_drop. lia.
      * apply (delete_removes _ _ j); simpl; auto.
        unfold occupied. simpl.
        rewrite <- (delete_occupied (entries impl) j (Z.to_nat (size impl)))
          by lia.
        f_equal; [lia|]. rewrite Nat2Z.id.
        replace (Z.to_nat (size impl - Z.of_nat j - 1))
          with (Z.to_nat (size impl) - j - 1)%nat by lia.
        replace (Z.to_nat (Z.of_nat j + 1)) with (S j) by lia.
        replace (Z.to_nat (Z.of_nat j + (size impl - Z.of_nat j - 1)))
          with (Z.to_nat (size impl) - 1)%nat by lia.
        reflexivity.
    + intros [= <-]. split; [reflexivity|]. split.
      * unfold wf. simpl. lia.
      * apply (delete_removes _ _ j); simpl; auto.
        unfold occupied. simpl.
        rewrite delete_take_drop, take_take.
        replace (j `min` Z.to_nat (size impl))%nat with j by lia.
        rewrite drop_ge by (rewrite length_take; lia).
        rewrite app_nil_r. f_equal. lia.
Qed.
End DeleteInversion.

(** ** Invariants of the container *)

Section Distinct.
Context (cmp : MapKeyCompareFunc).

Lemma distinct_keys (es1 es2 : list MapEntry) :
  key <$> es1 = key <$> es2 -> distinct cmp es1 -> distinct cmp es2.
Proof.
  intros Hk Hd i j ei ej Hij Hi Hj.
  assert ((key <$> es1) !! i = Some (key ei)) as Hi1
    by (rewrite Hk, list_lookup_fmap, Hi; reflexivity).
  assert ((key <$> es1) !! j = Some (key ej)) as Hj1
    by (rewrite Hk, list_lookup_fmap, Hj; reflexivity).
  rewrite list_lookup_fmap in Hi1, Hj1.
  destruct (es1 !! i) as [ei'|] eqn:Hi'; [|discriminate].
  destruct (es1 !! j) as [ej'|] eqn:Hj'; [|discriminate].
  simpl in Hi1, Hj1. injection Hi1 as <-. injection Hj1 as <-.
  apply (Hd i j ei' ej' Hij Hi' Hj').
Qed.

Lemma keys_overwrite (es : list MapEntry) (j : nat) e v :
  es !! j = Some e -> key <$> <[j := mkEntry (key e) v]> es = key <$> es.
Proof.
  intros He. rewrite list_fmap_insert. simpl. apply list_insert_id.
  rewrite list_lookup_fmap, He. reflexivity.
Qed.

Lemma distinct_snoc es k v :
  distinct cmp es -> scan cmp k es = Some None -> distinct cmp (es ++ [mkEntry k v]).
Proof.
  intros Hd Hs i j ei ej Hij Hi Hj.
  apply lookup_lt_Some in Hj as Hjlt. rewrite length_app in Hjlt. simpl in Hjlt.
  rewrite lookup_app_l in Hi by lia.
  destruct (decide (j < length es)%nat) as [Hlt|Hge].
  - rewrite lookup_app_l in Hj by lia. apply (Hd i j ei ej Hij Hi Hj).
  - rewrite lookup_app_r in Hj by lia.
    replace (j - length es)%nat with 0%nat in Hj by lia.
    injection Hj as <-. simpl.
    destruct (proj1 (scan_none cmp k es) Hs i ei Hi) as (c & Hc & Hne).
    rewrite Hc. congruence.
Qed.

Lemma distinct_delete es n : distinct cmp es -> distinct cmp (delete n es).
Proof.
  intros Hd i j ei ej Hij Hi Hj.
  destruct (decide (i < n)%nat) as [Hin|Hin];
    destruct (decide (j < n)%nat) as [Hjn|Hjn]; try lia.
  - rewrite list_lookup_delete_lt in Hi, Hj by lia. apply (Hd i j ei ej Hij Hi Hj).
  - rewrite list_lookup_delete_lt in Hi by lia. rewrite list_lookup_delete_ge in Hj by lia.
    apply (Hd i (S j) ei ej ltac:(lia) Hi Hj).
  - rewrite list_lookup_delete_ge in Hi, Hj by lia.
    apply (Hd (S i) (S j) ei ej ltac:(lia) Hi Hj).
Qed.

(** With a symmetric equal signal the order of the two entries does not
    matter. *)
Lemma distinct_symmetric es :
  cmp_symmetric cmp -> distinct cmp es ->
  forall i j ei ej, i <> j -> es !! i = Some ei -> es !! j = Some ej ->
    cmp (key ei) (key ej) <> Some 0.
Proof.
  intros Hsym Hd i j ei ej Hij Hi Hj Heq.
  destruct (decide (i < j)%nat) as [Hlt|Hge].
  - apply (Hd i j ei ej Hlt Hi Hj Heq).
  - apply (Hd j i ej ei ltac:(lia) Hj Hi). apply Hsym. exact Heq.
Qed.
End Distinct.

Lemma step_inv impl o impl' :
  map_inv impl -> step impl o = Some impl' ->
  map_inv impl' /\ compare_func impl' = compare_func impl /\
  capacity impl <= capacity impl'.
Proof.
  intros [Hwf Hd] Hstep. destruct o as [ok k v|k|k]; unfold step in Hstep.
  - destruct (map_set ok (Some impl) k v) as [[r [m|]]|] eqn:Hset;
      try discriminate. simpl in Hstep. injection Hstep as ->.
    apply (map_set_inv impl k v ok Hwf) in Hset as (Hc & Hwf' & Hout).
    unfold map_inv. rewrite Hc.
    destruct Hout as [j e m Hs He Hocc Hsz Hcap|m Hs Hocc Hsz Hcap _|Hs _ _].
    + split; [split; [exact Hwf'|]|split; [reflexivity|lia]].
      rewrite Hocc. apply (distinct_keys _ (occupied impl)); [|exact Hd].
      symmetry. apply keys_overwrite. exact He.
    + split; [split; [exact Hwf'|]|split; [reflexivity|lia]].
      rewrite Hocc. apply distinct_snoc; assumption.
    + split; [split; assumption|split; [reflexivity|lia]].
  - destruct (map_get (Some impl) k); [|discriminate]. injection Hstep as <-.
    split; [split; assumption|split; [reflexivity|lia]].
  - destruct (map_delete (Some impl) k) as [[m|]|] eqn:Hdel; try discriminate.
    injection Hstep as ->.
    apply (map_delete_inv impl k Hwf) in Hdel as (Hc & Hwf' & Hout).
    unfold map_inv. rewrite Hc. destruct Hout as [Hs|j m Hs Hocc Hsz Hcap].
    + split; [split; assumption|split; [reflexivity|lia]].
    + split; [split; [exact Hwf'|]|split; [reflexivity|lia]].
      rewrite Hocc. apply distinct_delete. exact Hd.
Qed.

Lemma run_inv ops impl impl' :
  map_inv impl -> run ops impl = Some impl' ->
  map_inv impl' /\ compare_func impl' = compare_func impl /\
  capacity impl <= capacity impl'.
Proof.
  revert impl. induction ops as [|o ops IH]; intros impl Hinv Hrun; simpl in Hrun.
  - injection Hrun as <-. repeat split; try apply Hinv. lia.
  - destruct (step impl o) as [m|] eqn:Hstep; [|discriminate]. simpl in Hrun.
    destruct (step_inv impl o m Hinv Hstep) as (Hinv' & Hc & Hcap).
    destruct (IH m Hinv' Hrun) as (Hinv'' & Hc' & Hcap').
    repeat split; try apply Hinv''; [congruence|lia].
Qed.

Lemma map_create_inv impl_ok entries_ok initial_capacity cmp impl :
  0 <= initial_capacity < UINT_MOD ->
  map_create impl_ok entries_ok initial_capacity cmp = Some impl ->
  map_inv impl /\ compare_func impl = cmp.
Proof.
  intros Hrange Hcreate. unfold map_create in Hcreate.
  destruct impl_ok, entries_ok; simpl in Hcreate; try discriminate.
  injection Hcreate as <-.
  unfold map_inv, wf. simpl. rewrite length_replicate.
  split; [split|reflexivity].
  - unfold UINT_MOD in *. destruct (Z.eqb_spec initial_capacity 0); lia.
  - intros i j ei ej _ Hi. discriminate.
Qed.

(** C4: on every map obtained from [map_create] by set, get and delete
    operations, under any comparator, no occupied entry compares equal to
    a later one (nor, the equal signal being symmetric, to any other one),
    size does not exceed capacity, and capacity has not decreased since
    any earlier point of the sequence. *)
Theorem map_invariants initial_capacity cmp ops1 ops2 m0 m1 m2 :
  0 <= initial_capacity < UINT_MOD ->
  map_create true true initial_capacity cmp = Some m0 ->
  run ops1 m0 = Some m1 ->
  run ops2 m1 = Some m2 ->
  compare_func m2 = cmp /\
  distinct cmp (occupied m2) /\
  (cmp_symmetric cmp ->
   forall i j ei ej, i <> j ->
     occupied m2 !! i = Some ei -> occupied m2 !! j = Some ej ->
     cmp (key ei) (key ej) <> Some 0) /\
  0 <= size m2 <= capacity m2 /\
  Z.of_nat (length (entries m2)) = capacity m2 /\
  capacity m0 <= capacity m1 <= capacity m2.
Proof.
  intros Hrange Hcreate Hrun1 Hrun2.
  destruct (map_create_inv _ _ _ _ _ Hrange Hcreate) as [Hinv0 Hc0].
  destruct (run_inv _ _ _ Hinv0 Hrun1) as (Hinv1 & Hc1 & Hcap1).
  destruct (run_inv _ _ _ Hinv1 Hrun2) as ([Hwf2 Hd2] & Hc2 & Hcap2).
  assert (compare_func m2 = cmp) as Hc by congruence.
  rewrite Hc in Hd2. destruct Hwf2 as (Hlen & Hsize & _).
  repeat split; auto; try lia.
  intros Hsym. apply distinct_symmetric; assumption.
Qed.

(** ** Deletion *)

Section Delete.
Context (impl : MapImpl) (k : ptr).
Hypothesis Hwf : wf impl.

(** [map_delete] returns whenever the scan does and the number of bytes
    to move is a value of [int]. *)
Lemma map_delete_returns idx :
  find_entry_index impl k = Some idx ->
  size impl * sizeof_MapEntry <= INT_MAX ->
  exists impl', map_delete (Some impl) k = Some (Some impl').
Proof.
  pose proof Hwf as (Hlen & Hsize & Hcap).
  intros Hf Hrange. simpl. rewrite Hf. simpl.
  apply (find_entry_index_inv impl k Hwf) in Hf as [[-> Hs]|(j & -> & Hj & Hs)].
  - rewrite decide_False by lia. eauto.
  - rewrite decide_True by lia.
    pose proof (scan_found_lt _ _ _ _ Hs) as Hlt.
    rewrite (occupied_length impl Hwf) in Hlt.
    rewrite (to_uint_small (Z.of_nat j)) by lia.
    rewrite (to_uint_small (size impl - 1)) by lia.
    destruct (Z.ltb_spec (Z.of_nat j) (size impl - 1)) as [Hmid|Hlast]; simpl;
      [|eauto].
    rewrite (to_uint_small (size impl - Z.of_nat j - 1)) by lia.
    rewrite to_size_t_small
      by (unfold sizeof_MapEntry, SIZE_MOD, UINT_MOD in *; lia).
    rewrite to_int_small
      by (unfold sizeof_MapEntry, INT_MIN, INT_MAX in *; lia).
    simpl. rewrite to_size_t_small
      by (unfold sizeof_MapEntry, SIZE_MOD, UINT_MOD in *; lia).
    unfold memmove_entries.
    replace ((size impl - Z.of_nat j - 1) * sizeof_MapEntry / sizeof_MapEntry)
      with (size impl - Z.of_nat j - 1)
      by (unfold sizeof_MapEntry; rewrite Z.div_mul; lia).
    rewrite decide_True by lia. simpl. eauto.
Qed.
End Delete.

Section ScanDelete.
Context (cmp : MapKeyCompareFunc) (es : list MapEntry) (j : nat).

(** A scan that did not stop at the deleted entry stops at the same entry
    afterwards. *)
Lemma scan_delete_none q :
  scan cmp q es = Some None -> scan cmp q (delete j es) = Some None.
Proof.
  rewrite !scan_none. intros H i e' He'.
  destruct (decide (i < j)%nat).
  - rewrite list_lookup_delete_lt in He' by lia. eauto.
  - rewrite list_lookup_delete_ge in He' by lia. eauto.
Qed.

Lemma scan_delete_before q j' :
  scan cmp q es = Some (Some j') -> (j' < j)%nat ->
  scan cmp q (delete j es) = Some (Some j').
Proof.
  rewrite !scan_found. intros (e & He & Hc & Hb) Hlt. exists e.
  rewrite list_lookup_delete_lt by lia. repeat split; auto.
  intros i e' Hi He'. rewrite list_lookup_delete_lt in He' by lia. eauto.
Qed.

Lemma scan_delete_after q j' :
  scan cmp q es = Some (Some (S j')) -> (j <= j')%nat ->
  scan cmp q (delete j es) = Some (Some j').
Proof.
  rewrite !scan_found. intros (e & He & Hc & Hb) Hlt. exists e.
  rewrite list_lookup_delete_ge by lia. repeat split; auto.
  intros i e' Hi He'. destruct (decide (i < j)%nat).
  - rewrite list_lookup_delete_lt in He' by lia. apply (Hb i); [lia|exact He'].
  - rewrite list_lookup_delete_ge in He' by lia. apply (Hb (S i)); [lia|exact He'].
Qed.

(** After the first match of [k] is deleted nothing matches [k], when the
    entries were distinct and the equal signal is symmetric and
    transitive. *)
Lemma scan_delete_self k :
  cmp_symmetric cmp -> cmp_transitive cmp -> distinct cmp es ->
  (forall e, e ∈ es -> is_Some (cmp (key e) k)) ->
  scan cmp k es = Some (Some j) ->
  scan cmp k (delete j es) = Some None.
Proof.
  intros Hsym Htrans Hd Hdef Hs. apply scan_found in Hs as (ej & Hej & Hcj & Hb).
  apply scan_none. intros i e' He'. destruct (decide (i < j)%nat).
  - rewrite list_lookup_delete_lt in He' by lia. eauto.
  - rewrite list_lookup_delete_ge in He' by lia.
    destruct (Hdef e') as [c Hc]; [apply list_elem_of_lookup; eauto|].
    exists c. split; [exact Hc|]. intros ->.
    apply (Hd j (S i) ej e' ltac:(lia) Hej He').
    apply (Htrans _ k _ Hcj). apply Hsym. exact Hc.
Qed.
End ScanDelete.

(** C5 (amended): [map_delete] with a key that no entry matches returns
    the map as it was.  With a key that matches the entry at [idx] it
    removes that entry: the entries before [idx] stay, the entries after it
    move down by one position, in order, size decreases by 1 and capacity
    stays; afterwards every key whose lookup did not end at [idx] gets the
    value it got before, and [map_get] of the key returns the null
    (not-found) result, the entries being distinct and the equal signal
    symmetric and transitive. *)
Theorem map_delete_spec (impl : MapImpl) (k : ptr) :
  wf impl ->
  (find_entry_index impl k = Some (-1) ->
   map_delete (Some impl) k = Some (Some impl)) /\
  (forall idx,
     find_entry_index impl k = Some idx -> idx <> -1 ->
     size impl * sizeof_MapEntry <= INT_MAX ->
     exists impl',
       map_delete (Some impl) k = Some (Some impl') /\
       size impl' = size impl - 1 /\
       capacity impl' = capacity impl /\
       compare_func impl' = compare_func impl /\
       occupied impl' = delete (Z.to_nat idx) (occupied impl) /\
       (forall i, Z.of_nat i < idx -> occupied impl' !! i = occupied impl !! i) /\
       (forall i, idx <= Z.of_nat i -> occupied impl' !! i = occupied impl !! S i) /\
       (distinct (compare_func impl) (occupied impl) ->
        cmp_symmetric (compare_func impl) ->
        cmp_transitive (compare_func impl) ->
        (forall e, e ∈ occupied impl -> is_Some (compare_func impl (key e) k)) ->
        map_get (Some impl') k = Some NULL) /\
       (forall q r,
          find_entry_index impl q <> Some idx ->
          map_get (Some impl) q = Some r ->
          map_get (Some impl') q = Some r)).
Proof.
  intros Hwf. split.
  - intros Hf. simpl. rewrite Hf. reflexivity.
  - intros idx Hf Hidx Hrange.
    destruct (map_delete_returns impl k Hwf idx Hf Hrange) as [impl' Hdel].
    exists impl'. split; [exact Hdel|].
    apply (map_delete_inv impl k Hwf) in Hdel as (Hc & Hwf' & Hout).
    apply (find_entry_index_inv impl k Hwf) in Hf as [[-> _]|(j & -> & Hj & Hs)];
      [contradiction|].
    destruct Hout as [Hs'|j' m Hs' Hocc Hsz Hcap]; [congruence|].
    assert (j' = j) as -> by congruence.
    pose proof Hwf as (Hlen & Hsize & Hcapr).
    assert (size impl <= INT_MAX) as Hsmall
      by (unfold sizeof_MapEntry in Hrange; lia).
    rewrite Nat2Z.id, Hocc.
    repeat apply conj; auto.
    + intros i Hi. apply list_lookup_delete_lt. lia.
    + intros i Hi. apply list_lookup_delete_ge. lia.
    + intros Hd Hsym Htrans Hdef. apply (map_get_notfound m k Hwf').
      rewrite Hc, Hocc. apply scan_delete_self; assumption.
    + intros q r Hq Hget.
      apply (map_get_inv impl q Hwf) in Hget as [[-> Hsq]|(jq & e & Hsq & He & ->)].
      * apply (map_get_notfound m q Hwf'). rewrite Hc, Hocc.
        apply scan_delete_none. exact Hsq.
      * pose proof (scan_found_lt _ _ _ _ Hsq) as Hlt.
        rewrite (occupied_length impl Hwf) in Hlt.
        assert (jq <> j) as Hne.
        { intros ->. apply Hq. apply (find_entry_index_found impl q Hwf j Hsq Hj). }
        destruct (decide (jq < j)%nat) as [Hbefore|Hafter].
        -- apply (map_get_found m q Hwf' jq e); [| |lia].
           ++ rewrite Hc, Hocc. apply scan_delete_before; assumption.
           ++ rewrite Hocc, list_lookup_delete_lt by lia. exact He.
        -- destruct jq as [|jq]; [lia|].
           apply (map_get_found m q Hwf' jq e); [| |lia].
           ++ rewrite Hc, Hocc. apply scan_delete_after; [assumption|lia].
           ++ rewrite Hocc, list_lookup_delete_ge by lia. exact He.
Qed.

(** C5, as stated, fails on maps whose comparator has an equal signal
    that is not transitive.  With a caller's comparator that takes two
    [int] keys for equal when they are at most 2 apart, a map built by
    [map_set] of 5 and of 9 has two entries; [map_delete] of 7 removes the
    entry of 5, and [map_get] of 7 then returns the value of 9, not the
    not-found result.  The same happens with [map_compare_ptr_keys], whose
    equal signal is "different locations": after [map_set] of one pointer
    twice and [map_delete] of another pointer, [map_get] of that other
    pointer returns the second value. *)
Lemma get_after_delete_finds :
  (exists m1 m2 m3,
     map_set true (map_create true true 2 (compare_int_keys_within 2 num_heap))
             (Ptr 1 0) (Ptr 10 0) = Some (0, Some m1) /\
     map_set true (Some m1) (Ptr 6 0) (Ptr 12 0) = Some (0, Some m2) /\
     size m2 = 2 /\
     map_delete (Some m2) (Ptr 3 0) = Some (Some m3) /\
     size m3 = 1 /\
     map_get (Some m3) (Ptr 3 0) = Some (Ptr 12 0)) /\
  (exists m1 m2 m3,
     map_set true (map_create true true 2 map_compare_ptr_keys)
             (Ptr 1 0) (Ptr 10 0) = Some (0, Some m1) /\
     map_set true (Some m1) (Ptr 1 0) (Ptr 11 0) = Some (0, Some m2) /\
     size m2 = 2 /\
     map_delete (Some m2) (Ptr 2 0) = Some (Some m3) /\
     size m3 = 1 /\
     map_get (Some m3) (Ptr 2 0) = Some (Ptr 11 0)).
Proof.
  split; (eexists; eexists; eexists;
          split; [vm_compute; reflexivity|];
          split; [vm_compute; reflexivity|];
          split; [reflexivity|];
          split; [vm_compute; reflexivity|];
          split; reflexivity).
Qed.

(** ** Setting and getting *)

Lemma latest_snoc cmp k' sets k v :
  latest cmp k' (sets ++ [(k, v)]) =
  if decide (cmp k k' = Some 0) then Some v else latest cmp k' sets.
Proof.
  induction sets as [|[k0 v0] sets IH]; simpl.
  - reflexivity.
  - rewrite IH. destruct (decide (cmp k k' = Some 0)); reflexivity.
Qed.

Lemma run_app ops1 ops2 impl :
  run (ops1 ++ ops2) impl = run ops1 impl ≫= run ops2.
Proof.
  revert impl. induction ops1 as [|o ops1 IH]; intros impl; simpl; [reflexivity|].
  destruct (step impl o) as [m|]; simpl; [apply IH|reflexivity].
Qed.

Lemma run_singleton o impl : run [o] impl = step impl o.
Proof. simpl. destruct (step impl o); reflexivity. Qed.

Lemma step_wf impl o impl' :
  wf impl -> step impl o = Some impl' ->
  wf impl' /\ compare_func impl' = compare_func impl.
Proof.
  intros Hwf Hstep. destruct o as [ok k v|k|k]; unfold step in Hstep.
  - destruct (map_set ok (Some impl) k v) as [[r [m|]]|] eqn:Hset;
      try discriminate. simpl in Hstep. injection Hstep as ->.
    apply (map_set_inv impl k v ok Hwf) in Hset as (Hc & Hwf' & _). auto.
  - destruct (map_get (Some impl) k); [|discriminate]. injection Hstep as <-. auto.
  - destruct (map_delete (Some impl) k) as [[m|]|] eqn:Hdel; try discriminate.
    injection Hstep as ->.
    apply (map_delete_inv impl k Hwf) in Hdel as (Hc & Hwf' & _). auto.
Qed.

Lemma run_wf ops impl impl' :
  wf impl -> run ops impl = Some impl' ->
  wf impl' /\ compare_func impl' = compare_func impl.
Proof.
  revert impl. induction ops as [|o ops IH]; intros impl Hwf Hrun; simpl in Hrun.
  - injection Hrun as <-. auto.
  - destruct (step impl o) as [m|] eqn:Hstep; [|discriminate]. simpl in Hrun.
    destruct (step_wf impl o m Hwf Hstep) as [Hwf' Hc].
    destruct (IH m Hwf' Hrun) as [Hwf'' Hc']. split; [exact Hwf''|congruence].
Qed.

Section ScanSnoc.
Context (cmp : MapKeyCompareFunc) (q : ptr) (es : list MapEntry) (x : MapEntry).

Lemma scan_snoc_found j :
  scan cmp q es = Some (Some j) -> scan cmp q (es ++ [x]) = Some (Some j).
Proof.
  rewrite !scan_found. intros (e & He & Hc & Hb).
  apply lookup_lt_Some in He as Hlt.
  exists e. rewrite lookup_app_l by lia. repeat split; auto.
  intros i e' Hi He'. rewrite lookup_app_l in He' by lia. eauto.
Qed.

Lemma scan_snoc_differs :
  scan cmp q es = Some None -> differs cmp q x ->
  scan cmp q (es ++ [x]) = Some None.
Proof.
  rewrite !scan_none. intros H Hx i e' He'.
  apply lookup_app_Some in He' as [He'|[Hge He']]; [eauto|].
  apply list_lookup_singleton_Some in He' as [_ <-]. exact Hx.
Qed.

Lemma scan_snoc_match :
  scan cmp q es = Some None -> cmp (key x) q = Some 0 ->
  scan cmp q (es ++ [x]) = Some (Some (length es)).
Proof.
  rewrite scan_none, scan_found. intros H Hx. exists x.
  rewrite lookup_app_r by lia. rewrite Nat.sub_diag. repeat split; auto.
  intros i e' Hi He'. rewrite lookup_app_l in He' by lia. eauto.
Qed.
End ScanSnoc.

Section ScanEquivalent.
Context (cmp : MapKeyCompareFunc) (k k' : ptr) (es : list MapEntry).
Hypothesis Hsym : cmp_symmetric cmp.
Hypothesis Htrans : cmp_transitive cmp.
Hypothesis Hkk' : cmp k k' = Some 0.
Hypothesis Hdef : forall i e, es !! i = Some e -> is_Some (cmp (key e) k').

(** An entry that differs from [k] differs from the equal key [k']. *)
Lemma differs_equivalent i e :
  es !! i = Some e -> differs cmp k e -> differs cmp k' e.
Proof.
  intros He (c & Hc & Hne). destruct (Hdef i e He) as [c' Hc'].
  exists c'. split; [exact Hc'|]. intros ->. apply Hne.
  assert (cmp (key e) k = Some 0) as Hek
    by (apply (Htrans _ k' _ Hc'); apply Hsym; exact Hkk').
  congruence.
Qed.

Lemma scan_equivalent_found j :
  scan cmp k es = Some (Some j) -> scan cmp k' es = Some (Some j).
Proof.
  rewrite !scan_found. intros (e & He & Hc & Hb). exists e.
  repeat split; auto.
  - apply (Htrans _ k _ Hc Hkk').
  - intros i e' Hi He'. apply (differs_equivalent i e' He'). eauto.
Qed.

Lemma scan_equivalent_none :
  scan cmp k es = Some None -> scan cmp k' es = Some None.
Proof.
  rewrite !scan_none. intros H i e' He'.
  apply (differs_equivalent i e' He'). eauto.
Qed.
End ScanEquivalent.

Section SetThenGet.
Context (m1 m : MapImpl) (k v k' : ptr) (r : Z).
Hypothesis Hwf : wf m1.
Hypothesis Hsym : cmp_symmetric (compare_func m1).
Hypothesis Htrans : cmp_transitive (compare_func m1).
Hypothesis Hset : map_set true (Some m1) k v = Some (r, Some m).
Hypothesis Hsmall : size m <= INT_MAX.
Hypothesis Hdef :
  forall i e, occupied m !! i = Some e -> is_Some (compare_func m1 (key e) k').

Lemma set_defined_before i e :
  occupied m1 !! i = Some e -> is_Some (compare_func m1 (key e) k').
Proof.
  intros He.
  destruct (map_set_inv m1 k v true Hwf r m Hset) as (_ & _ & Hout).
  destruct Hout as [j e0 m' Hs He0 Hocc _ _|m' Hs Hocc _ _ _|_ _ _].
  - destruct (decide (i = j)) as [->|Hne].
    + assert (e0 = e) as -> by congruence.
      apply (Hdef j (mkEntry (key e) v)). rewrite Hocc.
      apply list_lookup_insert_eq. apply lookup_lt_Some in He. exact He.
    + apply (Hdef i e). rewrite Hocc, list_lookup_insert_ne by auto. exact He.
  - apply (Hdef i e). rewrite Hocc. apply lookup_app_l_Some. exact He.
  - eauto.
Qed.

Lemma set_size_before : size m1 <= size m.
Proof using Hwf Hset.
  clear Hsmall Hdef Hsym Htrans.
  destruct (map_set_inv m1 k v true Hwf r m Hset) as (_ & _ & Hout).
  destruct Hout; lia.
Qed.

(** A set with a key equal to [k'] makes [k'] map to the new value. *)
Lemma get_after_set_equal :
  compare_func m1 k k' = Some 0 -> map_get (Some m) k' = Some v.
Proof.
  intros Hkk'.
  destruct (map_set_inv m1 k v true Hwf r m Hset) as (Hc & Hwf' & Hout).
  pose proof set_defined_before as Hdef1.
  destruct Hout as [j e m' Hs He Hocc Hsz _|m' Hs Hocc Hsz _ _|_ [=] _].
  - apply (map_get_found m' k' Hwf' j (mkEntry (key e) v)).
    + rewrite Hc, Hocc.
      rewrite (scan_keys _ _ _ (occupied m1)) by (apply keys_overwrite; exact He).
      apply (scan_equivalent_found _ k); auto.
    + rewrite Hocc. apply list_lookup_insert_eq.
      apply lookup_lt_Some in He. exact He.
    + apply lookup_lt_Some in He. rewrite (occupied_length m1 Hwf) in He.
      destruct Hwf as (_ & ? & _). lia.
  - apply (map_get_found m' k' Hwf' (length (occupied m1)) (mkEntry k v)).
    + rewrite Hc, Hocc. apply scan_snoc_match; [|exact Hkk'].
      apply (scan_equivalent_none _ k); auto.
    + rewrite Hocc, lookup_app_r by lia. rewrite Nat.sub_diag. reflexivity.
    + rewrite (occupied_length m1 Hwf). destruct Hwf as (_ & ? & _). lia.
Qed.

(** A set with a key not equal to [k'] leaves the value of [k'] alone. *)
Lemma get_after_set_other w :
  compare_func m1 k k' <> Some 0 ->
  map_get (Some m1) k' = Some w -> map_get (Some m) k' = Some w.
Proof.
  intros Hkk' Hget.
  destruct (map_set_inv m1 k v true Hwf r m Hset) as (Hc & Hwf' & Hout).
  apply (map_get_inv m1 k' Hwf) in Hget as [[-> Hs']|(j' & e' & Hs' & He' & ->)];
    destruct Hout as [j e m' Hs He Hocc Hsz _|m' Hs Hocc Hsz _ _|_ [=] _].
  - apply (map_get_notfound m' k' Hwf'). rewrite Hc, Hocc.
    rewrite (scan_keys _ _ _ (occupied m1)) by (apply keys_overwrite; exact He).
    exact Hs'.
  - apply (map_get_notfound m' k' Hwf'). rewrite Hc, Hocc.
    apply scan_snoc_differs; [exact Hs'|].
    destruct (Hdef (length (occupied m1)) (mkEntry k v)) as [c Hcv].
    { rewrite Hocc, lookup_app_r by lia. rewrite Nat.sub_diag. reflexivity. }
    exists c. split; [exact Hcv|]. intros ->. contradiction.
  - assert (j' <> j) as Hne.
    { intros ->. assert (e' = e) as -> by congruence.
      apply scan_found in Hs as (e0 & He0 & Hc0 & _).
      apply scan_found in Hs' as (e1 & He1 & Hc1 & _).
      assert (e0 = e) as -> by congruence. assert (e1 = e) as -> by congruence.
      apply Hkk'. apply (Htrans _ (key e) _); [apply Hsym|]; assumption. }
    apply (map_get_found m' k' Hwf' j' e').
    + rewrite Hc, Hocc.
      rewrite (scan_keys _ _ _ (occupied m1)) by (apply keys_overwrite; exact He).
      exact Hs'.
    + rewrite Hocc, list_lookup_insert_ne by auto. exact He'.
    + apply lookup_lt_Some in He'. rewrite (occupied_length m1 Hwf) in He'.
      destruct Hwf as (_ & ? & _). lia.
  - apply (map_get_found m' k' Hwf' j' e').
    + rewrite Hc, Hocc. apply scan_snoc_found. exact Hs'.
    + rewrite Hocc. apply lookup_app_l_Some. exact He'.
    + apply lookup_lt_Some in He'. rewrite (occupied_length m1 Hwf) in He'.
      destruct Hwf as (_ & ? & _). lia.
Qed.
End SetThenGet.

Lemma map_set_found impl k v ok j e :
  wf impl ->
  scan (compare_func impl) k (occupied impl) = Some (Some j) ->
  occupied impl !! j = Some e ->
  Z.of_nat j <= INT_MAX ->
  map_set ok (Some impl) k v =
  Some (0, Some (mkMap (<[j := mkEntry (key e) v]> (entries impl))
                       (size impl) (capacity impl) (compare_func impl))).
Proof.
  intros Hwf Hs He Hj. simpl.
  rewrite (find_entry_index_found impl k Hwf j Hs Hj). simpl.
  rewrite decide_True by lia.
  rewrite (entry_at_occupied impl j e He). simpl. rewrite Nat2Z.id. reflexivity.
Qed.

(** A call that returned 0 does the same with a [realloc] that succeeds,
    and a call that did not left the map alone. *)
Lemma map_set_success_any_realloc impl ok k v impl' :
  map_set ok (Some impl) k v = Some (0, Some impl') ->
  map_set true (Some impl) k v = Some (0, Some impl').
Proof.
  simpl. destruct (find_entry_index impl k) as [idx|]; [|discriminate].
  cbn [mbind option_bind]. case_decide; [auto|].
  destruct (size impl >=? capacity impl); [|auto].
  unfold realloc_entries. destruct (_ =? 0); [discriminate|].
  destruct ok; [auto|discriminate].
Qed.

Lemma map_set_failure_unchanged impl ok k v r impl' :
  map_set ok (Some impl) k v = Some (r, Some impl') -> r <> 0 -> impl' = impl.
Proof.
  simpl. destruct (find_entry_index impl k) as [idx|]; [|discriminate].
  cbn [mbind option_bind]. case_decide.
  - destruct (entry_at _ _); [|discriminate]. intros [= <- _]. contradiction.
  - destruct (size impl >=? capacity impl).
    + unfold realloc_entries. destruct (_ =? 0); [discriminate|].
      destruct ok; cbn [mbind option_bind].
      * destruct (entry_at _ _); [|discriminate]. intros [= <- _]. contradiction.
      * intros [= _ <-]. reflexivity.
    + cbn [mbind option_bind].
      destruct (entry_at _ _); [|discriminate]. intros [= <- _]. contradiction.
Qed.

Lemma run_sets_effective calls :
  forall impl done m,
    run_sets calls impl = Some (done, m) -> run (set_ops done) impl = Some m.
Proof.
  induction calls as [|[[ok k] v] calls IH]; intros impl done m Hrun.
  - injection Hrun as <- <-. reflexivity.
  - cbn [run_sets] in Hrun.
    destruct (map_set ok (Some impl) k v) as [[r [impl'|]]|] eqn:Hset;
      try discriminate.
    cbn [mbind option_bind snd fst] in Hrun.
    destruct (run_sets calls impl') as [[done' m']|] eqn:Hrest; [|discriminate].
    cbn [mbind option_bind snd fst] in Hrun. injection Hrun as <- <-.
    specialize (IH impl' done' m' Hrest).
    destruct (Z.eqb_spec r 0) as [->|Hne].
    + change (run (OpSet true k v :: set_ops done') impl = Some m').
      cbn [run step]. rewrite (map_set_success_any_realloc _ _ _ _ _ Hset).
      exact IH.
    + rewrite (map_set_failure_unchanged _ _ _ _ _ _ Hset Hne) in IH. exact IH.
Qed.

Lemma get_after_sets k' sets :
  forall m0 m w,
    wf m0 ->
    cmp_symmetric (compare_func m0) ->
    cmp_transitive (compare_func m0) ->
    run (set_ops sets) m0 = Some m ->
    size m <= INT_MAX ->
    (forall i e, occupied m !! i = Some e ->
                 is_Some (compare_func m0 (key e) k')) ->
    latest (compare_func m0) k' sets = Some w ->
    map_get (Some m) k' = Some w.
Proof.
  induction sets as [|[k v] sets IH] using rev_ind;
    intros m0 m w Hwf Hsym Htrans Hrun Hsmall Hdef Hlatest; [discriminate|].
  unfold set_ops in Hrun. rewrite fmap_app, run_app in Hrun.
  fold (set_ops sets) in Hrun.
  destruct (run (set_ops sets) m0) as [m1|] eqn:Hrun1; [|discriminate].
  destruct (run_wf _ _ _ Hwf Hrun1) as [Hwf1 Hc1].
  change (run [OpSet true k v] m1 = Some m) in Hrun.
  rewrite run_singleton in Hrun. unfold step in Hrun.
  destruct (map_set true (Some m1) k v) as [[r [m'|]]|] eqn:Hset;
    try discriminate. simpl in Hrun. injection Hrun as ->.
  rewrite latest_snoc in Hlatest.
  assert (cmp_symmetric (compare_func m1)) as Hsym1 by (rewrite Hc1; exact Hsym).
  assert (cmp_transitive (compare_func m1)) as Htrans1 by (rewrite Hc1; exact Htrans).
  assert (forall i e, occupied m !! i = Some e ->
                      is_Some (compare_func m1 (key e) k')) as Hdef1
    by (rewrite Hc1; exact Hdef).
  destruct (decide (compare_func m0 k k' = Some 0)) as [Heq|Hne].
  - injection Hlatest as <-.
    apply (get_after_set_equal m1 m k v k' r); try assumption.
    rewrite Hc1. exact Heq.
  - apply (get_after_set_other m1 m k v k' r); try assumption.
    + rewrite Hc1. exact Hne.
    + apply (IH m0 m1 w); try assumption.
      * pose proof (set_size_before m1 m k v r Hwf1 Hset). lia.
      * rewrite <- Hc1. apply (set_defined_before m1 m k v k' r); assumption.
Qed.

Lemma map_set_twice m0 ok1 k v1 v2 m1 :
  wf m0 ->
  map_set ok1 (Some m0) k v1 = Some (0, Some m1) ->
  compare_func m0 k k = Some 0 ->
  size m1 <= INT_MAX ->
  exists m2,
    (forall ok2, map_set ok2 (Some m1) k v2 = Some (0, Some m2)) /\
    size m2 = size m1 /\
    capacity m2 = capacity m1 /\
    key <$> entries m2 = key <$> entries m1 /\
    map_get (Some m2) k = Some v2.
Proof.
  intros Hwf Hset Hrefl Hsmall.
  destruct (map_set_inv m0 k v1 ok1 Hwf 0 m1 Hset) as (Hc & Hwf1 & Hout).
  assert (exists j e1, scan (compare_func m1) k (occupied m1) = Some (Some j) /\
                       occupied m1 !! j = Some e1) as (j & e1 & Hs1 & He1).
  { rewrite Hc. inversion Hout as [j e m' Hs He Hocc _ _|m' Hs Hocc _ _ _|].
    - exists j, (mkEntry (key e) v1). rewrite Hocc. split.
      + rewrite (scan_keys _ _ _ (occupied m0)) by (apply keys_overwrite; exact He).
        exact Hs.
      + apply list_lookup_insert_eq. apply lookup_lt_Some in He. exact He.
    - exists (length (occupied m0)), (mkEntry k v1). rewrite Hocc. split.
      + apply scan_snoc_match; assumption.
      + rewrite lookup_app_r by lia. rewrite Nat.sub_diag. reflexivity. }
  assert (Z.of_nat j <= INT_MAX) as Hj.
  { apply lookup_lt_Some in He1. rewrite (occupied_length m1 Hwf1) in He1.
    destruct Hwf1 as (_ & ? & _). lia. }
  pose proof (fun ok2 => map_set_found m1 k v2 ok2 j e1 Hwf1 Hs1 He1 Hj) as Hset2.
  eexists. split; [exact Hset2|]. simpl.
  destruct (map_set_inv m1 k v2 true Hwf1 _ _ (Hset2 true)) as (Hc2 & Hwf2 & Hout2).
  repeat apply conj; try reflexivity.
  - apply keys_overwrite. apply (occupied_lookup m1) in He1. tauto.
  - apply (map_get_found _ k Hwf2 j (mkEntry (key e1) v2)); [| |exact Hj].
    + simpl. unfold occupied at 1. simpl.
      rewrite take_insert_lt
        by (apply lookup_lt_Some in He1; rewrite (occupied_length m1 Hwf1) in He1; lia).
      rewrite (scan_keys _ _ _ (occupied m1)) by (apply keys_overwrite; exact He1).
      exact Hs1.
    + unfold occupied at 1. simpl.
      rewrite take_insert_lt
        by (apply lookup_lt_Some in He1; rewrite (occupied_length m1 Hwf1) in He1; lia).
      apply list_lookup_insert_eq. apply lookup_lt_Some in He1. exact He1.
Qed.

(** C1 (amended): on a map whose comparator has a symmetric and
    transitive equal signal, after a sequence of [map_set] calls,
    [map_get] with a key [k'] returns the value of the most recent call
    that returned 0 and whose key compares equal to [k'].  And after a
    successful
    [map_set] of [k], a key that compares equal to itself, a second
    [map_set] of [k] returns 0, leaves size, capacity and every stored key
    reference as they are, and makes [map_get] of [k] return the new
    value. *)
Theorem set_then_get (m0 : MapImpl) :
  wf m0 ->
  (forall calls sets m k' w,
     cmp_symmetric (compare_func m0) ->
     cmp_transitive (compare_func m0) ->
     run_sets calls m0 = Some (sets, m) ->
     size m <= INT_MAX ->
     (forall e, e ∈ occupied m -> is_Some (compare_func m0 (key e) k')) ->
     latest (compare_func m0) k' sets = Some w ->
     map_get (Some m) k' = Some w) /\
  (forall ok1 k v1 v2 m1,
     map_set ok1 (Some m0) k v1 = Some (0, Some m1) ->
     compare_func m0 k k = Some 0 ->
     size m1 <= INT_MAX ->
     exists m2,
       (forall ok2, map_set ok2 (Some m1) k v2 = Some (0, Some m2)) /\
       size m2 = size m1 /\
       capacity m2 = capacity m1 /\
       key <$> entries m2 = key <$> entries m1 /\
       map_get (Some m2) k = Some v2).
Proof.
  intros Hwf. split.
  - intros calls sets m k' w Hsym Htrans Hrun Hsmall Hdef Hlatest.
    apply (get_after_sets k' sets m0 m w); try assumption.
    + apply (run_sets_effective calls). exact Hrun.
    + intros i e He. apply Hdef. apply list_elem_of_lookup. eauto.
  - intros ok1 k v1 v2 m1 Hset Hrefl Hsmall.
    apply (map_set_twice m0 ok1 k v1 v2 m1); assumption.
Qed.

(** C1, as stated, fails on a key that does not compare equal to itself:
    with the [float] comparator and a NaN key, the second [map_set] of the
    same key appends a second entry (size goes from 1 to 2) and [map_get]
    of the key returns the null result, not the value set last. *)
Lemma set_twice_nan_key :
  exists m1 m2,
    map_set true float_map (Ptr 4 0) (Ptr 10 0) = Some (0, Some m1) /\
    map_set true (Some m1) (Ptr 4 0) (Ptr 11 0) = Some (0, Some m2) /\
    size m1 = 1 /\ size m2 = 2 /\
    map_get (Some m2) (Ptr 4 0) = Some NULL.
Proof.
  eexists. eexists.
  split; [vm_compute; reflexivity|].
  split; [vm_compute; reflexivity|].
  repeat split.
Qed.

(** ** The equal signal of the provided comparators *)

Lemma SFeqb_sym a b : SFeqb a b = true -> SFeqb b a = true.
Proof.
  intros H. destruct (SFeqb_true_inv a b H) as [<-|(s1 & s2 & -> & ->)];
    [exact H|reflexivity].
Qed.

Lemma SFeqb_trans a b c : SFeqb a b = true -> SFeqb b c = true -> SFeqb a c = true.
Proof. intros Hab Hbc. rewrite <- (SFeqb_congr_r b c a Hbc). exact Hab. Qed.

Section ProvidedComparators.
Context (h : heap).

Lemma map_compare_int_keys_symmetric : cmp_symmetric (map_compare_int_keys h).
Proof.
  intros a b. unfold map_compare_int_keys.
  destruct (load_int h a) as [x|], (load_int h b) as [y|]; simpl; try discriminate.
  rewrite (Z.eqb_sym y x). auto.
Qed.

Lemma map_compare_int_keys_transitive : cmp_transitive (map_compare_int_keys h).
Proof.
  intros a b c. unfold map_compare_int_keys.
  destruct (load_int h a) as [x|], (load_int h b) as [y|], (load_int h c) as [z|];
    simpl; try discriminate.
  destruct (Z.eqb_spec x y) as [->|]; [auto|discriminate].
Qed.

Lemma map_compare_uint_keys_symmetric : cmp_symmetric (map_compare_uint_keys h).
Proof.
  intros a b. unfold map_compare_uint_keys.
  destruct (load_uint h a) as [x|], (load_uint h b) as [y|]; simpl; try discriminate.
  rewrite (Z.eqb_sym y x). auto.
Qed.

Lemma map_compare_uint_keys_transitive : cmp_transitive (map_compare_uint_keys h).
Proof.
  intros a b c. unfold map_compare_uint_keys.
  destruct (load_uint h a) as [x|], (load_uint h b) as [y|], (load_uint h c) as [z|];
    simpl; try discriminate.
  destruct (Z.eqb_spec x y) as [->|]; [auto|discriminate].
Qed.

Lemma map_compare_float_keys_symmetric : cmp_symmetric (map_compare_float_keys h).
Proof.
  intros a b. unfold map_compare_float_keys.
  destruct (load_float h a) as [x|], (load_float h b) as [y|]; simpl; try discriminate.
  destruct (SFeqb x y) eqn:Hxy; [|discriminate].
  rewrite (SFeqb_sym x y Hxy). auto.
Qed.

Lemma map_compare_float_keys_transitive : cmp_transitive (map_compare_float_keys h).
Proof.
  intros a b c. unfold map_compare_float_keys.
  destruct (load_float h a) as [x|], (load_float h b) as [y|], (load_float h c) as [z|];
    simpl; try discriminate.
  destruct (SFeqb x y) eqn:Hxy; [|discriminate].
  destruct (SFeqb y z) eqn:Hyz; [|discriminate].
  rewrite (SFeqb_trans x y z Hxy Hyz). auto.
Qed.

Lemma map_compare_double_keys_symmetric : cmp_symmetric (map_compare_double_keys h).
Proof.
  intros a b. unfold map_compare_double_keys.
  destruct (load_double h a) as [x|], (load_double h b) as [y|]; simpl; try discriminate.
  destruct (SFeqb x y) eqn:Hxy; [|discriminate].
  rewrite (SFeqb_sym x y Hxy). auto.
Qed.

Lemma map_compare_double_keys_transitive : cmp_transitive (map_compare_double_keys h).
Proof.
  intros a b c. unfold map_compare_double_keys.
  destruct (load_double h a) as [x|], (load_double h b) as [y|], (load_double h c) as [z|];
    simpl; try discriminate.
  destruct (SFeqb x y) eqn:Hxy; [|discriminate].
  destruct (SFeqb y z) eqn:Hyz; [|discriminate].
  rewrite (SFeqb_trans x y z Hxy Hyz). auto.
Qed.

(** [strcmp] returns 0 exactly on two strings with the same characters. *)
Lemma strcmp_chars_zero s1 s2 :
  strcmp_chars s1 s2 = Some 0 <->
  exists s, cstring s1 = Some s /\ cstring s2 = Some s.
Proof.
  revert s2. induction s1 as [|c1 r1 IH]; intros [|c2 r2]; simpl;
    try (split; [discriminate|intros (s & H1 & H2); discriminate]).
  destruct (Z.eqb_spec c1 c2) as [->|Hne].
  - destruct (Z.eqb_spec c2 0) as [->|Hnz].
    + split; eauto.
    + rewrite IH. split.
      * intros (s & -> & ->). simpl. eauto.
      * intros (s & H1 & H2).
        destruct (cstring r1) as [t1|], (cstring r2) as [t2|];
          simpl in *; try discriminate.
        exists t1. split; congruence.
  - split.
    + intros [= H0]. lia.
    + intros (s & H1 & H2).
      destruct (Z.eqb_spec c1 0) as [->|], (Z.eqb_spec c2 0) as [->|];
        try congruence.
      * destruct (cstring r2); simpl in *; congruence.
      * destruct (cstring r1); simpl in *; congruence.
      * destruct (cstring r1), (cstring r2); simpl in *; congruence.
Qed.

Lemma map_compare_string_keys_symmetric : cmp_symmetric (map_compare_string_keys h).
Proof.
  intros a b. unfold map_compare_string_keys, strcmp.
  destruct (chars_at h a) as [[cs1 i]|], (chars_at h b) as [[cs2 j]|];
    simpl; try discriminate.
  rewrite !strcmp_chars_zero. intros (s & H1 & H2). eauto.
Qed.

Lemma map_compare_string_keys_transitive : cmp_transitive (map_compare_string_keys h).
Proof.
  intros a b c. unfold map_compare_string_keys, strcmp.
  destruct (chars_at h a) as [[cs1 i]|], (chars_at h b) as [[cs2 j]|],
    (chars_at h c) as [[cs3 l]|]; simpl; try discriminate.
  rewrite !strcmp_chars_zero. intros (s & H1 & H2) (t & H3 & H4).
  exists s. split; congruence.
Qed.
End ProvidedComparators.

Lemma map_compare_ptr_keys_symmetric : cmp_symmetric map_compare_ptr_keys.
Proof.
  intros a b. rewrite !map_compare_ptr_keys_zero. auto.
Qed.

(** ** Equal numeric keys are one key *)

Lemma scan_same_key cmp p q es :
  same_key cmp p q -> scan cmp p es = scan cmp q es.
Proof.
  intros Hpq. induction es as [|e es IH]; simpl; [reflexivity|].
  rewrite (Hpq (key e)), IH. reflexivity.
Qed.

Lemma numeric_comparator_symmetric h cmp :
  numeric_comparator h cmp -> cmp_symmetric cmp.
Proof.
  intros [-> | [-> | [-> | ->]]];
    auto using map_compare_int_keys_symmetric, map_compare_uint_keys_symmetric,
               map_compare_float_keys_symmetric, map_compare_double_keys_symmetric.
Qed.

Lemma numeric_comparator_transitive h cmp :
  numeric_comparator h cmp -> cmp_transitive cmp.
Proof.
  intros [-> | [-> | [-> | ->]]];
    auto using map_compare_int_keys_transitive, map_compare_uint_keys_transitive,
               map_compare_float_keys_transitive, map_compare_double_keys_transitive.
Qed.

(** After a successful [map_set] of a key that compares equal to itself
    the scan for the key stops at an entry that holds the value. *)
Lemma set_key_found m0 ok k v m1 :
  wf m0 ->
  map_set ok (Some m0) k v = Some (0, Some m1) ->
  compare_func m0 k k = Some 0 ->
  exists j e1,
    scan (compare_func m1) k (occupied m1) = Some (Some j) /\
    occupied m1 !! j = Some e1 /\ value e1 = v.
Proof.
  intros Hwf Hset Hrefl.
  destruct (map_set_inv m0 k v ok Hwf 0 m1 Hset) as (Hc & Hwf1 & Hout).
  rewrite Hc. inversion Hout as [j e m' Hs He Hocc _ _|m' Hs Hocc _ _ _|].
  - exists j, (mkEntry (key e) v). rewrite Hocc. repeat split.
    + rewrite (scan_keys _ _ _ (occupied m0)) by (apply keys_overwrite; exact He).
      exact Hs.
    + apply list_lookup_insert_eq. apply lookup_lt_Some in He. exact He.
  - exists (length (occupied m0)), (mkEntry k v). rewrite Hocc. repeat split.
    + apply scan_snoc_match; assumption.
    + rewrite lookup_app_r by lia. rewrite Nat.sub_diag. reflexivity.
Qed.

Section EqualNumericKeys.
Context (h : heap) (impl impl' : MapImpl) (p q v : ptr) (ok : bool).
Hypothesis Hwf : wf impl.
Hypothesis Hnum : numeric_comparator h (compare_func impl).
Hypothesis Heq : compare_func impl p q = Some 0.
Hypothesis Hset : map_set ok (Some impl) p v = Some (0, Some impl').
Hypothesis Hsmall : size impl' <= INT_MAX.

Lemma equal_keys_found :
  exists j e1,
    scan (compare_func impl') p (occupied impl') = Some (Some j) /\
    scan (compare_func impl') q (occupied impl') = Some (Some j) /\
    occupied impl' !! j = Some e1 /\ value e1 = v /\ Z.of_nat j <= INT_MAX /\
    wf impl' /\ compare_func impl' = compare_func impl.
Proof.
  destruct (map_set_inv impl p v ok Hwf 0 impl' Hset) as (Hc & Hwf' & _).
  assert (compare_func impl p p = Some 0) as Hpp.
  { apply (numeric_comparator_transitive h _ Hnum p q p Heq).
    apply (numeric_comparator_symmetric h _ Hnum). exact Heq. }
  destruct (set_key_found impl ok p v impl' Hwf Hset Hpp) as (j & e1 & Hs & He1 & Hv).
  exists j, e1.
  split; [exact Hs|]. split.
  { rewrite <- Hs. symmetry. apply scan_same_key. rewrite Hc.
    apply (numeric_comparator_same_key h _ p q Hnum Heq). }
  split; [exact He1|]. split; [exact Hv|]. split.
  { apply lookup_lt_Some in He1. rewrite (occupied_length impl' Hwf') in He1.
    destruct Hwf' as (_ & ? & _). lia. }
  split; [exact Hwf'|exact Hc].
Qed.

(** A value set through [p] is the one [map_get] returns through [q]. *)
Lemma equal_keys_get : map_get (Some impl') q = Some v.
Proof.
  destruct equal_keys_found as (j & e1 & _ & Hsq & He1 & <- & Hj & Hwf' & _).
  apply (map_get_found impl' q Hwf' j e1); assumption.
Qed.

(** [map_set] through [q] overwrites the entry that was set through [p]. *)
Lemma equal_keys_set ok2 v2 :
  exists impl2,
    map_set ok2 (Some impl') q v2 = Some (0, Some impl2) /\
    size impl2 = size impl' /\
    capacity impl2 = capacity impl' /\
    map_get (Some impl2) p = Some v2.
Proof.
  destruct equal_keys_found as (j & e1 & Hsp & Hsq & He1 & _ & Hj & Hwf' & _).
  pose proof (map_set_found impl' q v2 ok2 j e1 Hwf' Hsq He1 Hj) as Hset2.
  eexists. split; [exact Hset2|].
  destruct (map_set_inv impl' q v2 ok2 Hwf' _ _ Hset2) as (_ & Hwf2 & _).
  assert (j < Z.to_nat (size impl'))%nat as Hlt
    by (apply lookup_lt_Some in He1; rewrite (occupied_length impl' Hwf') in He1; lia).
  repeat apply conj; try reflexivity.
  apply (map_get_found _ p Hwf2 j (mkEntry (key e1) v2)); [| |exact Hj].
  - simpl. unfold occupied at 1. simpl. rewrite take_insert_lt by exact Hlt.
    rewrite (scan_keys _ _ _ (occupied impl')) by (apply keys_overwrite; exact He1).
    exact Hsp.
  - unfold occupied at 1. simpl. rewrite take_insert_lt by exact Hlt.
    apply list_lookup_insert_eq. apply lookup_lt_Some in He1. exact He1.
Qed.

(** [map_delete] through [q] removes the entry that was set through [p]. *)
Lemma equal_keys_delete :
  distinct (compare_func impl) (occupied impl) ->
  (forall e, e ∈ occupied impl' -> is_Some (compare_func impl (key e) p)) ->
  size impl' * sizeof_MapEntry <= INT_MAX ->
  exists impl3,
    map_delete (Some impl') q = Some (Some impl3) /\
    size impl3 = size impl' - 1 /\
    map_get (Some impl3) p = Some NULL /\
    map_get (Some impl3) q = Some NULL.
Proof.
  intros Hd Hdef Hrange.
  destruct equal_keys_found as (j & e1 & Hsp & Hsq & He1 & _ & Hj & Hwf' & Hc).
  assert (distinct (compare_func impl') (occupied impl')) as Hd'.
  { destruct (step_inv impl (OpSet ok p v) impl' (conj Hwf Hd)) as [[_ Hd'] _];
      [unfold step; rewrite Hset; reflexivity|exact Hd']. }
  pose proof (find_entry_index_found impl' q Hwf' j Hsq Hj) as Hf.
  destruct (map_delete_returns impl' q Hwf' _ Hf Hrange) as [impl3 Hdel].
  exists impl3. split; [exact Hdel|].
  apply (map_delete_inv impl' q Hwf') in Hdel as (Hc3 & Hwf3 & Hout).
  destruct Hout as [Habs|j' m Hs' Hocc Hsz _]; [congruence|].
  assert (j' = j) as -> by congruence.
  assert (scan (compare_func m) p (occupied m) = Some None) as Hnone.
  { rewrite Hc3, Hocc. apply scan_delete_self; try assumption.
    - rewrite Hc. apply (numeric_comparator_symmetric h _ Hnum).
    - rewrite Hc. apply (numeric_comparator_transitive h _ Hnum).
    - rewrite Hc. exact Hdef. }
  split; [exact Hsz|]. split.
  - apply (map_get_notfound m p Hwf3 Hnone).
  - apply (map_get_notfound m q Hwf3). rewrite <- Hnone. symmetry.
    apply scan_same_key. rewrite Hc3, Hc.
    apply (numeric_comparator_same_key h _ p q Hnum Heq).
Qed.
End EqualNumericKeys.

(** C9: each numeric comparator, on two references to scalars of its type,
    returns 0 exactly when the two scalars are equal (IEEE equality for
    [float] and [double]) and -1 on every mismatch.  Two references [p] and
    [q] that it finds equal are one key for a map bound to it: every
    operation gives the same result for [q] as for [p]; a value set
    through [p] is what [map_get] returns through [q]; [map_set] through
    [q] then overwrites that entry, the size staying as it is; and
    [map_delete] through [q] removes it, after which neither [p] nor [q]
    is found. *)
Theorem numeric_comparators_spec (h : heap) (p q : ptr) :
  (forall a b, load_int h p = Some a -> load_int h q = Some b ->
     (map_compare_int_keys h p q = Some 0 <-> a = b) /\
     (a <> b -> map_compare_int_keys h p q = Some (-1))) /\
  (forall a b, load_uint h p = Some a -> load_uint h q = Some b ->
     (map_compare_uint_keys h p q = Some 0 <-> a = b) /\
     (a <> b -> map_compare_uint_keys h p q = Some (-1))) /\
  (forall a b, load_float h p = Some a -> load_float h q = Some b ->
     (map_compare_float_keys h p q = Some 0 <-> SFeqb a b = true) /\
     (SFeqb a b = false -> map_compare_float_keys h p q = Some (-1))) /\
  (forall a b, load_double h p = Some a -> load_double h q = Some b ->
     (map_compare_double_keys h p q = Some 0 <-> SFeqb a b = true) /\
     (SFeqb a b = false -> map_compare_double_keys h p q = Some (-1))) /\
  (forall impl,
     numeric_comparator h (compare_func impl) ->
     compare_func impl p q = Some 0 ->
     find_entry_index impl p = find_entry_index impl q /\
     map_get (Some impl) p = map_get (Some impl) q /\
     map_delete (Some impl) p = map_delete (Some impl) q /\
     forall ok v,
       fst <$> map_set ok (Some impl) p v = fst <$> map_set ok (Some impl) q v /\
       (find_entry_index impl p <> Some (-1) ->
        map_set ok (Some impl) p v = map_set ok (Some impl) q v)) /\
  (forall impl impl' ok v,
     wf impl ->
     numeric_comparator h (compare_func impl) ->
     compare_func impl p q = Some 0 ->
     map_set ok (Some impl) p v = Some (0, Some impl') ->
     size impl' <= INT_MAX ->
     map_get (Some impl') q = Some v /\
     (forall ok2 v2,
        exists impl2,
          map_set ok2 (Some impl') q v2 = Some (0, Some impl2) /\
          size impl2 = size impl' /\
          capacity impl2 = capacity impl' /\
          map_get (Some impl2) p = Some v2) /\
     (distinct (compare_func impl) (occupied impl) ->
      (forall e, e ∈ occupied impl' -> is_Some (compare_func impl (key e) p)) ->
      size impl' * sizeof_MapEntry <= INT_MAX ->
      exists impl3,
        map_delete (Some impl') q = Some (Some impl3) /\
        size impl3 = size impl' - 1 /\
        map_get (Some impl3) p = Some NULL /\
        map_get (Some impl3) q = Some NULL)).
Proof.
  repeat apply conj.
  - intros a b Ha Hb. rewrite (map_compare_int_keys_result h p q a b Ha Hb).
    destruct (Z.eqb_spec a b); (split; [split|]); intros; congruence.
  - intros a b Ha Hb. rewrite (map_compare_uint_keys_result h p q a b Ha Hb).
    destruct (Z.eqb_spec a b); (split; [split|]); intros; congruence.
  - intros a b Ha Hb. rewrite (map_compare_float_keys_result h p q a b Ha Hb).
    destruct (SFeqb a b); (split; [split|]); intros; congruence.
  - intros a b Ha Hb. rewrite (map_compare_double_keys_result h p q a b Ha Hb).
    destruct (SFeqb a b); (split; [split|]); intros; congruence.
  - intros impl Hnum Heq.
    pose proof (numeric_comparator_same_key h _ p q Hnum Heq) as Hsame.
    repeat apply conj.
    + apply find_entry_index_same_key, Hsame.
    + apply map_get_same_key, Hsame.
    + apply map_delete_same_key, Hsame.
    + intros ok v. apply map_set_same_key, Hsame.
  - intros impl impl' ok v Hwf Hnum Heq Hset Hsmall. repeat apply conj.
    + apply (equal_keys_get h impl impl' p q v ok); assumption.
    + intros ok2 v2. apply (equal_keys_set h impl impl' p q v ok); assumption.
    + intros Hd Hdef Hrange.
      apply (equal_keys_delete h impl impl' p q v ok); assumption.
Qed.

(** ** The theorems at concrete maps *)

Example int_map_0_created :
  map_create true true 2 (map_compare_int_keys num_heap) = Some int_map_0.
Proof. reflexivity. Qed.

(** The demonstration program (examples/string_keys/main.c): with the
    exact comparator "lu" and "Lu" are two keys; with the case-insensitive
    one the second set overwrites the first. *)
Example demo_exact_keys :
  (m1 ← map_set true (map_create true true 2 (map_compare_string_keys demo_heap))
                (Ptr 1 0) (Ptr 5 0);
   m2 ← map_set true m1.2 (Ptr 2 0) (Ptr 6 0);
   lu1 ← map_get m2.2 (Ptr 1 0);
   lu2 ← map_get m2.2 (Ptr 2 0);
   n ← map_get_size m2.2;
   Some (lu1, lu2, n)) = Some (Ptr 5 0, Ptr 6 0, 2).
Proof. vm_compute. reflexivity. Qed.

Example demo_keys_ignoring_case :
  (m1 ← map_set true (map_create true true 2 (ignoring_case_on demo_heap))
                (Ptr 1 0) (Ptr 5 0);
   m2 ← map_set true m1.2 (Ptr 2 0) (Ptr 6 0);
   lu3 ← map_get m2.2 (Ptr 1 0);
   lu4 ← map_get m2.2 (Ptr 2 0);
   n ← map_get_size m2.2;
   Some (lu3, lu4, n)) = Some (Ptr 6 0, Ptr 6 0, 1).
Proof. vm_compute. reflexivity. Qed.


Lemma int_map_2_wf : wf int_map_2.
Proof. unfold wf, UINT_MOD. simpl. lia. Defined.

Lemma int_map_2_distinct :
  distinct (map_compare_int_keys num_heap) (occupied int_map_2).
Proof.
  intros i j ei ej Hij Hi Hj.
  destruct i as [|[|i]], j as [|[|j]]; try lia; try discriminate.
  injection Hi as <-. injection Hj as <-. vm_compute. discriminate.
Defined.

Lemma map_set_realloc_failure_witness :
  map_set false (Some int_map_2) (Ptr 6 0) (Ptr 12 0) = Some (-1, Some int_map_2).
Proof.
  apply map_set_realloc_failure.
  - reflexivity.
  - reflexivity.
  - vm_compute. discriminate.
Defined.


Lemma numeric_comparators_spec_witness :
  Ptr 1 0 <> Ptr 2 0 /\
  map_compare_int_keys num_heap (Ptr 1 0) (Ptr 2 0) = Some 0 /\
  map_get (Some int_map_2) (Ptr 1 0) = map_get (Some int_map_2) (Ptr 2 0) /\
  map_get (Some int_map_1) (Ptr 2 0) = Some (Ptr 10 0) /\
  (exists impl2,
     map_set true (Some int_map_1) (Ptr 2 0) (Ptr 13 0) = Some (0, Some impl2) /\
     size impl2 = 1 /\ map_get (Some impl2) (Ptr 1 0) = Some (Ptr 13 0)) /\
  (exists impl3,
     map_delete (Some int_map_1) (Ptr 2 0) = Some (Some impl3) /\
     size impl3 = 0 /\ map_get (Some impl3) (Ptr 1 0) = Some NULL).
Proof.
  destruct (numeric_comparators_spec num_heap (Ptr 1 0) (Ptr 2 0))
    as (Hint & _ & _ & _ & Hmap & Hone).
  assert (map_compare_int_keys num_heap (Ptr 1 0) (Ptr 2 0) = Some 0) as Heq.
  { apply (Hint 5 5); reflexivity. }
  destruct (Hmap int_map_2 (or_introl eq_refl) Heq) as (_ & Hget & _ & _).
  destruct (Hone int_map_0 int_map_1 true (Ptr 10 0)) as (Hq & Hsetq & Hdelq).
  - unfold wf, UINT_MOD. simpl. lia.
  - left. reflexivity.
  - exact Heq.
  - reflexivity.
  - vm_compute. discriminate.
  - split; [discriminate|]. split; [exact Heq|]. split; [exact Hget|].
    split; [exact Hq|]. split.
    + destruct (Hsetq true (Ptr 13 0)) as (impl2 & Hs2 & Hsz & _ & Hg).
      exists impl2. auto.
    + destruct Hdelq as (impl3 & Hd3 & Hsz & Hg & _).
      * intros i j ei ej Hij Hi Hj. discriminate Hi.
      * intros e He. vm_compute in He.
        apply elem_of_cons in He as [->|He]; [vm_compute; eauto|].
        apply elem_of_nil in He. contradiction.
      * vm_compute. discriminate.
      * exists impl3. auto.
Defined.

Lemma map_delete_spec_witness :
  exists impl',
    map_delete (Some int_map_2) (Ptr 1 0) = Some (Some impl') /\
    size impl' = 1 /\
    occupied impl' = [mkEntry (Ptr 3 0) (Ptr 11 0)] /\
    map_get (Some impl') (Ptr 1 0) = Some NULL /\
    map_get (Some impl') (Ptr 3 0) = Some (Ptr 11 0).
Proof.
  destruct (map_delete_spec int_map_2 (Ptr 1 0) int_map_2_wf) as [_ Hpresent].
  destruct (Hpresent 0) as
    (impl' & Hdel & Hsz & _ & _ & Hocc & _ & _ & Hself & Hother).
  - reflexivity.
  - discriminate.
  - vm_compute. discriminate.
  - exists impl'. repeat apply conj.
    + exact Hdel.
    + exact Hsz.
    + exact Hocc.
    + apply Hself.
      * exact int_map_2_distinct.
      * apply map_compare_int_keys_symmetric.
      * apply map_compare_int_keys_transitive.
      * intros e He. vm_compute in He.
        apply elem_of_cons in He as [->|He]; [vm_compute; eauto|].
        apply elem_of_cons in He as [->|He]; [vm_compute; eauto|].
        apply elem_of_nil in He. contradiction.
    + apply Hother; [vm_compute; discriminate|reflexivity].
Defined.

Lemma map_invariants_witness :
  run [OpSet true (Ptr 1 0) (Ptr 10 0); OpSet true (Ptr 3 0) (Ptr 11 0);
       OpSet true (Ptr 6 0) (Ptr 12 0)] int_map_0 = Some int_map_3 /\
  run [OpGet (Ptr 2 0); OpDelete (Ptr 1 0)] int_map_3 = Some int_map_4 /\
  distinct (map_compare_int_keys num_heap) (occupied int_map_4) /\
  0 <= size int_map_4 <= capacity int_map_4 /\
  capacity int_map_0 <= capacity int_map_3 <= capacity int_map_4.
Proof.
  assert (run [OpSet true (Ptr 1 0) (Ptr 10 0); OpSet true (Ptr 3 0) (Ptr 11 0);
               OpSet true (Ptr 6 0) (Ptr 12 0)] int_map_0 = Some int_map_3) as H1
    by reflexivity.
  assert (run [OpGet (Ptr 2 0); OpDelete (Ptr 1 0)] int_map_3 = Some int_map_4) as H2
    by reflexivity.
  destruct (map_invariants 2 (map_compare_int_keys num_heap)
              [OpSet true (Ptr 1 0) (Ptr 10 0); OpSet true (Ptr 3 0) (Ptr 11 0);
               OpSet true (Ptr 6 0) (Ptr 12 0)]
              [OpGet (Ptr 2 0); OpDelete (Ptr 1 0)]
              int_map_0 int_map_3 int_map_4) as (_ & Hd & _ & Hsz & _ & Hcap);
    try assumption; try reflexivity.
  - unfold UINT_MOD. lia.
  - auto.
Defined.

Lemma set_then_get_witness :
  exists m,
    run_sets [(true, Ptr 1 0, Ptr 10 0); (true, Ptr 3 0, Ptr 11 0);
              (false, Ptr 6 0, Ptr 13 0); (true, Ptr 2 0, Ptr 12 0)] int_map_0
      = Some ([(Ptr 1 0, Ptr 10 0); (Ptr 3 0, Ptr 11 0); (Ptr 2 0, Ptr 12 0)], m) /\
    size m = 2 /\
    map_get (Some m) (Ptr 1 0) = Some (Ptr 12 0) /\
    exists m2,
      map_set true (Some int_map_1) (Ptr 1 0) (Ptr 13 0) = Some (0, Some m2) /\
      size m2 = 1 /\ map_get (Some m2) (Ptr 1 0) = Some (Ptr 13 0).
Proof.
  assert (wf int_map_0) as Hwf0 by (unfold wf, UINT_MOD; simpl; lia).
  destruct (set_then_get int_map_0 Hwf0) as [Hseq Htwice].
  eexists. split; [reflexivity|]. split; [reflexivity|]. split.
  - eapply (Hseq [(true, Ptr 1 0, Ptr 10 0); (true, Ptr 3 0, Ptr 11 0);
                  (false, Ptr 6 0, Ptr 13 0); (true, Ptr 2 0, Ptr 12 0)]
                 [(Ptr 1 0, Ptr 10 0); (Ptr 3 0, Ptr 11 0); (Ptr 2 0, Ptr 12 0)]).
    + apply map_compare_int_keys_symmetric.
    + apply map_compare_int_keys_transitive.
    + reflexivity.
    + vm_compute. discriminate.
    + intros e He. vm_compute in He.
      apply elem_of_cons in He as [->|He]; [vm_compute; eauto|].
      apply elem_of_cons in He as [->|He]; [vm_compute; eauto|].
      apply elem_of_nil in He. contradiction.
    + reflexivity.
  - destruct (Htwice true (Ptr 1 0) (Ptr 10 0) (Ptr 13 0) int_map_1)
      as (m2 & Hset2 & Hsz & _ & _ & Hget); [reflexivity|reflexivity| |].
    + vm_compute. discriminate.
    + exists m2. auto.
Defined.

(** * Further properties of the code *)

(** ** The linear scan *)

(** X1: [find_entry_index] returns the lowest index whose key compares
    equal: either -1, and every occupied entry compares not equal to the
    key, or an index below [size] whose entry compares equal while every
    entry before it compares not equal. *)
Theorem find_entry_index_first_match (impl : MapImpl) (k : ptr) (idx : Z) :
  wf impl ->
  find_entry_index impl k = Some idx ->
  (idx = -1 /\
   forall i e, 0 <= i < size impl -> entry_at (entries impl) i = Some e ->
               differs (compare_func impl) k e) \/
  (0 <= idx < size impl /\
   exists e, entry_at (entries impl) idx = Some e /\
             compare_func impl (key e) k = Some 0 /\
             forall i e', 0 <= i < idx -> entry_at (entries impl) i = Some e' ->
                          differs (compare_func impl) k e').
Proof.
  intros Hwf Hf.
  assert (forall i e, 0 <= i -> entry_at (entries impl) i = Some e ->
                      entries impl !! Z.to_nat i = Some e) as Hat.
  { intros i e Hi. unfold entry_at. rewrite decide_True by lia. auto. }
  apply (find_entry_index_inv impl k Hwf) in Hf as [[-> Hs]|(j & -> & Hj & Hs)].
  - left. split; [reflexivity|]. intros i e Hi He.
    apply (proj1 (scan_none _ _ _) Hs (Z.to_nat i) e).
    apply occupied_lookup. split; [lia|]. apply Hat; [lia|exact He].
  - right. pose proof (scan_found_lt _ _ _ _ Hs) as Hlt.
    rewrite (occupied_length impl Hwf) in Hlt.
    apply scan_found in Hs as (e & He & Hc & Hb).
    split; [lia|]. exists e. split; [apply entry_at_occupied; exact He|].
    split; [exact Hc|]. intros i e' Hi He'.
    apply (Hb (Z.to_nat i) e'); [lia|].
    apply occupied_lookup. split; [lia|]. apply Hat; [lia|exact He'].
Qed.

Lemma find_entry_index_first_match_witness :
  0 <= 1 < size int_map_2 /\
  exists e, entry_at (entries int_map_2) 1 = Some e /\
            compare_func int_map_2 (key e) (Ptr 3 0) = Some 0.
Proof.
  destruct (find_entry_index_first_match int_map_2 (Ptr 3 0) 1 int_map_2_wf)
    as [[Hneg _]|(Hidx & e & He & Hc & _)].
  - reflexivity.
  - discriminate Hneg.
  - split; [exact Hidx|]. exists e. auto.
Defined.

(** ** Results and growth of [map_set] *)

(** What [map_set] does to the capacity: nothing, or, on a full map, it
    doubles it. *)
Lemma map_set_capacity impl ok k v r impl' :
  wf impl ->
  map_set ok (Some impl) k v = Some (r, Some impl') ->
  capacity impl' = capacity impl \/
  (capacity impl' = 2 * capacity impl /\ size impl = capacity impl /\ r = 0).
Proof.
  intros (Hlen & Hsize & Hcap). simpl.
  destruct (find_entry_index impl k) as [idx|]; [|discriminate].
  cbn [mbind option_bind]. case_decide.
  - destruct (entry_at _ _); [|discriminate]. intros [= _ <-]. auto.
  - destruct (Z.geb_spec (size impl) (capacity impl)) as [Hfull|Hroom].
    + unfold realloc_entries.
      pose proof (to_uint_range (capacity impl * 2)) as Hnc.
      rewrite to_size_t_small
        by (unfold sizeof_MapEntry, SIZE_MOD, UINT_MOD in *; lia).
      destruct (Z.eqb_spec (sizeof_MapEntry * to_uint (capacity impl * 2)) 0);
        [discriminate|].
      destruct ok; cbn [mbind option_bind]; [|intros [= _ <-]; auto].
      replace (sizeof_MapEntry * to_uint (capacity impl * 2) / sizeof_MapEntry)
        with (to_uint (capacity impl * 2))
        by (unfold sizeof_MapEntry; rewrite (Z.mul_comm 16), Z.div_mul; lia).
      unfold entry_at. rewrite decide_True by lia.
      destruct (resize _ _ _ !! _) as [e0|] eqn:He0; [|discriminate].
      cbn [mbind option_bind]. intros [= <- <-]. simpl.
      apply lookup_lt_Some in He0. rewrite length_resize in He0.
      right. split; [|split; [lia|reflexivity]].
      unfold to_uint, UINT_MOD in *.
      destruct (Z_lt_ge_dec (capacity impl * 2) (2 ^ 32)) as [Hsmall|Hbig].
      * rewrite Z.mod_small by lia. lia.
      * replace (capacity impl * 2) with (capacity impl * 2 - 2 ^ 32 + 1 * 2 ^ 32) in He0
          by lia.
        rewrite Z_mod_plus_full, Z.mod_small in He0 by lia. lia.
    + cbn [mbind option_bind].
      destruct (entry_at _ _); [|discriminate]. intros [= _ <-]. auto.
Qed.

(** X2: on a map, [map_set] returns 0 or -1 and never turns the reference
    into a null one; it returns -1 only when the key is new, the map is
    full and [realloc] has failed, and then the map is as it was.  With a
    [realloc] that succeeds it never returns -1. *)
Theorem map_set_result_codes (impl : MapImpl) (ok : bool) (k v : ptr) r o :
  map_set ok (Some impl) k v = Some (r, o) ->
  exists impl', o = Some impl' /\
    (r = 0 \/
     (r = -1 /\ ok = false /\ size impl >= capacity impl /\
      find_entry_index impl k = Some (-1) /\ impl' = impl)).
Proof.
  simpl. destruct (find_entry_index impl k) as [idx|]; [|discriminate].
  cbn [mbind option_bind]. case_decide as Hidx.
  - destruct (entry_at _ _); [|discriminate]. intros [= <- <-]. eauto.
  - assert (idx = -1) as -> by lia.
    destruct (Z.geb_spec (size impl) (capacity impl)) as [Hfull|Hroom].
    + unfold realloc_entries. destruct (_ =? 0); [discriminate|].
      destruct ok; cbn [mbind option_bind].
      * destruct (entry_at _ _); [|discriminate]. intros [= <- <-]. eauto.
      * intros [= <- <-]. exists impl. split; [reflexivity|]. right.
        repeat split; auto. lia.
    + cbn [mbind option_bind].
      destruct (entry_at _ _); [|discriminate]. intros [= <- <-]. eauto.
Qed.

Lemma map_set_result_codes_witness :
  exists impl', Some int_map_2 = Some impl' /\
    (-1 = 0 \/
     (-1 = -1 /\ false = false /\ size int_map_2 >= capacity int_map_2 /\
      find_entry_index int_map_2 (Ptr 6 0) = Some (-1) /\ impl' = int_map_2)).
Proof.
  apply (map_set_result_codes int_map_2 false (Ptr 6 0) (Ptr 12 0)).
  reflexivity.
Defined.

(** X3: [map_set] of a new key, when [realloc] succeeds or is not needed,
    returns 0 and appends the pair after the occupied entries, which stay
    as they are; the capacity is doubled exactly when the map was full, and
    is untouched otherwise. *)
Theorem map_set_new_key (impl : MapImpl) (ok : bool) (k v : ptr) :
  wf impl ->
  find_entry_index impl k = Some (-1) ->
  ok = true \/ size impl < capacity impl ->
  (size impl = capacity impl -> 0 < capacity impl /\ capacity impl * 2 < UINT_MOD) ->
  exists impl',
    map_set ok (Some impl) k v = Some (0, Some impl') /\
    occupied impl' = occupied impl ++ [mkEntry k v] /\
    size impl' = size impl + 1 /\
    capacity impl' =
      (if size impl =? capacity impl then 2 * capacity impl else capacity impl) /\
    Z.of_nat (length (entries impl')) = capacity impl'.
Proof.
  intros Hwf Hfind Hok Hgrow. pose proof Hwf as (Hlen & Hsize & Hcap).
  assert (exists impl', map_set ok (Some impl) k v = Some (0, Some impl'))
    as [impl' Hset].
  { simpl. rewrite Hfind. cbn [mbind option_bind].
    rewrite decide_False by lia.
    destruct (Z.geb_spec (size impl) (capacity impl)) as [Hfull|Hroom].
    - destruct Hgrow as [Hpos Hdbl]; [lia|].
      destruct Hok as [->|]; [|lia].
      unfold realloc_entries. rewrite (to_uint_small (capacity impl * 2)) by lia.
      rewrite to_size_t_small
        by (unfold sizeof_MapEntry, SIZE_MOD, UINT_MOD in *; lia).
      destruct (Z.eqb_spec (sizeof_MapEntry * (capacity impl * 2)) 0) as [Hz|_];
        [unfold sizeof_MapEntry in Hz; lia|].
      cbn [mbind option_bind].
      replace (sizeof_MapEntry * (capacity impl * 2) / sizeof_MapEntry)
        with (capacity impl * 2)
        by (unfold sizeof_MapEntry; rewrite (Z.mul_comm 16), Z.div_mul; lia).
      unfold entry_at. rewrite decide_True by lia.
      destruct (lookup_lt_is_Some_2
                  (resize (Z.to_nat (capacity impl * 2)) uninit_entry (entries impl))
                  (Z.to_nat (size impl))) as [e0 He0];
        [rewrite length_resize; lia|].
      rewrite He0. cbn [mbind option_bind]. eauto.
    - cbn [mbind option_bind]. unfold entry_at. rewrite decide_True by lia.
      destruct (lookup_lt_is_Some_2 (entries impl) (Z.to_nat (size impl)))
        as [e0 He0]; [lia|].
      rewrite He0. cbn [mbind option_bind]. eauto. }
  exists impl'. split; [exact Hset|].
  destruct (map_set_inv impl k v ok Hwf 0 impl' Hset) as (_ & Hwf' & Hout).
  assert (scan (compare_func impl) k (occupied impl) = Some None) as Hnone.
  { apply (find_entry_index_inv impl k Hwf) in Hfind as [[_ Hs]|(j & Hj & _)];
      [exact Hs|lia]. }
  inversion Hout as [j e m Hs He Hocc Hsz Hcp|m Hs Hocc Hsz Hle Hsame|];
    [congruence|subst m].
  pose proof Hwf' as (Hlen' & Hsize' & _).
  repeat split; auto.
  destruct (Z.eqb_spec (size impl) (capacity impl)) as [Heq|Hne]; [|apply Hsame; lia].
  destruct (map_set_capacity impl ok k v 0 impl' Hwf Hset) as [Hc|(Hc & _)]; lia.
Qed.

Lemma map_set_new_key_witness :
  exists impl',
    map_set true (Some int_map_2) (Ptr 6 0) (Ptr 12 0) = Some (0, Some impl') /\
    size impl' = 3 /\ capacity impl' = 4.
Proof.
  destruct (map_set_new_key int_map_2 true (Ptr 6 0) (Ptr 12 0) int_map_2_wf)
    as (impl' & Hset & _ & Hsz & Hcap & _).
  - reflexivity.
  - left. reflexivity.
  - intros _. vm_compute. split; reflexivity.
  - exists impl'. split; [exact Hset|]. split; [exact Hsz|exact Hcap].
Defined.

Lemma step_capacity impl o impl' :
  wf impl -> step impl o = Some impl' ->
  capacity impl' = capacity impl \/ capacity impl' = 2 * capacity impl.
Proof.
  intros Hwf Hstep. destruct o as [ok k v|k|k]; unfold step in Hstep.
  - destruct (map_set ok (Some impl) k v) as [[r [m|]]|] eqn:Hset;
      try discriminate. simpl in Hstep. injection Hstep as ->.
    destruct (map_set_capacity impl ok k v r impl' Hwf Hset) as [?|[? _]]; auto.
  - destruct (map_get (Some impl) k); [|discriminate]. injection Hstep as <-. auto.
  - destruct (map_delete (Some impl) k) as [[m|]|] eqn:Hdel; try discriminate.
    injection Hstep as ->.
    apply (map_delete_inv impl k Hwf) in Hdel as (_ & _ & Hout).
    destruct Hout; auto.
Qed.

Lemma run_capacity ops :
  forall impl impl',
    wf impl -> run ops impl = Some impl' ->
    exists j : nat, capacity impl' = capacity impl * 2 ^ Z.of_nat j.
Proof.
  induction ops as [|o ops IH]; intros impl impl' Hwf Hrun; simpl in Hrun.
  - injection Hrun as <-. exists 0%nat. simpl. lia.
  - destruct (step impl o) as [m|] eqn:Hstep; [|discriminate].
    cbn [mbind option_bind] in Hrun.
    destruct (step_wf impl o m Hwf Hstep) as [Hwf' _].
    destruct (IH m impl' Hwf' Hrun) as [j Hj].
    destruct (step_capacity impl o m Hwf Hstep) as [Hc|Hc]; rewrite Hc in Hj.
    + exists j. exact Hj.
    + exists (S j). rewrite Nat2Z.inj_succ, Z.pow_succ_r by lia. lia.
Qed.

(** X4: whatever is done to a map after its creation, its capacity is the
    initial capacity (10 when 0 was requested) times a power of two: the
    storage grows by doubling and by nothing else, and never shrinks. *)
Theorem capacity_doubles_only initial_capacity cmp ops m0 m :
  0 <= initial_capacity < UINT_MOD ->
  map_create true true initial_capacity cmp = Some m0 ->
  run ops m0 = Some m ->
  exists j : nat,
    capacity m =
    (if initial_capacity =? 0 then 10 else initial_capacity) * 2 ^ Z.of_nat j.
Proof.
  intros Hrange Hcreate Hrun.
  destruct (map_create_inv _ _ _ _ _ Hrange Hcreate) as [[Hwf _] _].
  destruct (run_capacity ops m0 m Hwf Hrun) as [j Hj].
  exists j. rewrite Hj. f_equal.
  unfold map_create in Hcreate. simpl in Hcreate. injection Hcreate as <-.
  reflexivity.
Qed.

Lemma capacity_doubles_only_witness :
  exists j : nat, capacity int_map_4 = 2 * 2 ^ Z.of_nat j.
Proof.
  apply (capacity_doubles_only 2 (map_compare_int_keys num_heap)
           [OpSet true (Ptr 1 0) (Ptr 10 0); OpSet true (Ptr 3 0) (Ptr 11 0);
            OpSet true (Ptr 6 0) (Ptr 12 0); OpGet (Ptr 2 0); OpDelete (Ptr 1 0)]
           int_map_0 int_map_4).
  - unfold UINT_MOD. lia.
  - reflexivity.
  - reflexivity.
Defined.

(** ** How the operations compose *)

(** X5: a successful [map_set] of [k] leaves the value of every key that
    does not compare equal to [k] as it was: [map_get] of such a key
    returns what it returned before (the null result included), the equal
    signal being symmetric and transitive. *)
Theorem map_set_other_keys (m1 m : MapImpl) (ok : bool) (k v q w : ptr) :
  wf m1 ->
  cmp_symmetric (compare_func m1) ->
  cmp_transitive (compare_func m1) ->
  map_set ok (Some m1) k v = Some (0, Some m) ->
  size m <= INT_MAX ->
  (forall e, e ∈ occupied m -> is_Some (compare_func m1 (key e) q)) ->
  compare_func m1 k q <> Some 0 ->
  map_get (Some m1) q = Some w ->
  map_get (Some m) q = Some w.
Proof.
  intros Hwf Hsym Htrans Hset Hsmall Hdef Hne Hget.
  apply (get_after_set_other m1 m k v q 0); try assumption.
  - apply (map_set_success_any_realloc _ ok). exact Hset.
  - intros i e He. apply Hdef. apply list_elem_of_lookup. eauto.
Qed.

Lemma map_set_other_keys_witness :
  map_get (Some int_map_3) (Ptr 3 0) = Some (Ptr 11 0).
Proof.
  apply (map_set_other_keys int_map_2 int_map_3 true (Ptr 6 0) (Ptr 12 0)).
  - exact int_map_2_wf.
  - apply map_compare_int_keys_symmetric.
  - apply map_compare_int_keys_transitive.
  - reflexivity.
  - vm_compute. discriminate.
  - intros e He. vm_compute in He.
    apply elem_of_cons in He as [->|He]; [vm_compute; eauto|].
    apply elem_of_cons in He as [->|He]; [vm_compute; eauto|].
    apply elem_of_cons in He as [->|He]; [vm_compute; eauto|].
    apply elem_of_nil in He. contradiction.
  - vm_compute. discriminate.
  - reflexivity.
Defined.

Lemma delete_last (l : list MapEntry) x : delete (length l) (l ++ [x]) = l.
Proof.
  rewrite delete_take_drop, take_app_length.
  rewrite drop_ge by (rewrite length_app; simpl; lia). apply app_nil_r.
Qed.

(** X6: [map_set] of a new key that compares equal to itself, followed by
    [map_delete] of the same key, gives back the occupied entries and the
    size the map had before; the capacity stays where the set left it. *)
Theorem set_then_delete_restores (impl m1 : MapImpl) (ok : bool) (k v : ptr) :
  wf impl ->
  find_entry_index impl k = Some (-1) ->
  compare_func impl k k = Some 0 ->
  map_set ok (Some impl) k v = Some (0, Some m1) ->
  size m1 * sizeof_MapEntry <= INT_MAX ->
  exists m2,
    map_delete (Some m1) k = Some (Some m2) /\
    occupied m2 = occupied impl /\
    size m2 = size impl /\
    capacity m2 = capacity m1.
Proof.
  intros Hwf Hfind Hrefl Hset Hrange.
  destruct (map_set_inv impl k v ok Hwf 0 m1 Hset) as (Hc & Hwf1 & Hout).
  assert (scan (compare_func impl) k (occupied impl) = Some None) as Hnone.
  { apply (find_entry_index_inv impl k Hwf) in Hfind as [[_ Hs]|(j & Hj & _)];
      [exact Hs|lia]. }
  inversion Hout as [j e m Hs He Hocc Hsz Hcp|m Hs Hocc Hsz Hle Hsame|];
    [congruence|subst m].
  assert (scan (compare_func m1) k (occupied m1)
          = Some (Some (length (occupied impl)))) as Hs1.
  { rewrite Hc, Hocc. apply scan_snoc_match; assumption. }
  pose proof Hwf as (_ & Hsize & _).
  assert (find_entry_index m1 k = Some (Z.of_nat (length (occupied impl)))) as Hf1.
  { apply (find_entry_index_found m1 k Hwf1 _ Hs1).
    rewrite (occupied_length impl Hwf). unfold sizeof_MapEntry in Hrange. lia. }
  destruct (map_delete_returns m1 k Hwf1 _ Hf1 Hrange) as [m2 Hdel].
  exists m2. split; [exact Hdel|].
  apply (map_delete_inv m1 k Hwf1) in Hdel as (_ & _ & Hout2).
  destruct Hout2 as [Habs|j m2 Hsj Hocc2 Hsz2 Hcap2]; [congruence|].
  assert (j = length (occupied impl)) as -> by congruence.
  rewrite Hocc2, Hocc, delete_last. repeat split; auto. lia.
Qed.

Lemma set_then_delete_restores_witness :
  exists m2,
    map_delete (Some int_map_3) (Ptr 6 0) = Some (Some m2) /\
    occupied m2 = occupied int_map_2 /\ size m2 = 2.
Proof.
  destruct (set_then_delete_restores int_map_2 int_map_3 true (Ptr 6 0) (Ptr 12 0))
    as (m2 & Hdel & Hocc & Hsz & _).
  - exact int_map_2_wf.
  - reflexivity.
  - reflexivity.
  - reflexivity.
  - vm_compute. discriminate.
  - exists m2. auto.
Defined.

(** X7: deleting a key twice is deleting it once: after [map_delete] of
    [k] a second [map_delete] of [k] finds nothing and leaves the map as it
    is, on distinct entries and a symmetric and transitive equal signal. *)
Theorem map_delete_twice (impl m1 : MapImpl) (k : ptr) :
  wf impl ->
  distinct (compare_func impl) (occupied impl) ->
  cmp_symmetric (compare_func impl) ->
  cmp_transitive (compare_func impl) ->
  (forall e, e ∈ occupied impl -> is_Some (compare_func impl (key e) k)) ->
  map_delete (Some impl) k = Some (Some m1) ->
  find_entry_index m1 k = Some (-1) /\
  map_delete (Some m1) k = Some (Some m1).
Proof.
  intros Hwf Hd Hsym Htrans Hdef Hdel.
  apply (map_delete_inv impl k Hwf) in Hdel as (Hc & Hwf1 & Hout).
  assert (find_entry_index m1 k = Some (-1)) as Hf.
  { apply (find_entry_index_notfound m1 k Hwf1). rewrite Hc.
    destruct Hout as [Hs|j m Hs Hocc _ _]; [exact Hs|].
    rewrite Hocc. apply scan_delete_self; assumption. }
  split; [exact Hf|]. simpl. rewrite Hf. reflexivity.
Qed.

Lemma map_delete_twice_witness :
  map_delete (Some int_map_4) (Ptr 1 0) = Some (Some int_map_4).
Proof.
  apply (map_delete_twice int_map_3 int_map_4 (Ptr 1 0)).
  - unfold wf, UINT_MOD. simpl. lia.
  - intros i j ei ej Hij Hi Hj.
    destruct i as [|[|[|i]]], j as [|[|[|j]]]; try lia; try discriminate;
      injection Hi as <-; injection Hj as <-; vm_compute; discriminate.
  - apply map_compare_int_keys_symmetric.
  - apply map_compare_int_keys_transitive.
  - intros e He. vm_compute in He.
    apply elem_of_cons in He as [->|He]; [vm_compute; eauto|].
    apply elem_of_cons in He as [->|He]; [vm_compute; eauto|].
    apply elem_of_cons in He as [->|He]; [vm_compute; eauto|].
    apply elem_of_nil in He. contradiction.
  - reflexivity.
Defined.

(** X8: the first [map_set] on a map that [map_create] has just returned
    returns 0 and stores the pair as the only entry, for every requested
    capacity, every comparator (it is not called) and every outcome of
    [realloc] (it is not called either: the capacity is at least 1); and
    [map_get] of the key then returns the value, if the key compares equal
    to itself. *)
Theorem first_set_succeeds initial_capacity cmp (ok : bool) (k v : ptr) :
  0 <= initial_capacity < UINT_MOD ->
  exists m,
    map_set ok (map_create true true initial_capacity cmp) k v = Some (0, Some m) /\
    size m = 1 /\
    occupied m = [mkEntry k v] /\
    capacity m = (if initial_capacity =? 0 then 10 else initial_capacity) /\
    (cmp k k = Some 0 -> map_get (Some m) k = Some v).
Proof.
  intros Hrange. unfold map_create. cbn [negb].
  set (c := if initial_capacity =? 0 then 10 else initial_capacity).
  assert (1 <= c < UINT_MOD) as Hc
    by (unfold c, UINT_MOD in *; destruct (Z.eqb_spec initial_capacity 0); lia).
  destruct (Z.to_nat c) as [|n] eqn:Hn; [lia|].
  set (m := mkMap (<[0%nat := mkEntry k v]> (replicate (S n) uninit_entry)) 1 c cmp).
  assert (map_set ok (Some (mkMap (replicate (S n) uninit_entry) 0 c cmp)) k v
          = Some (0, Some m)) as Hset.
  { assert (find_entry_index (mkMap (replicate (S n) uninit_entry) 0 c cmp) k
            = Some (-1)) as Hf by reflexivity.
    unfold map_set. rewrite Hf. cbn [mbind option_bind].
    rewrite decide_False by lia. cbn [size capacity entries compare_func].
    destruct (Z.geb_spec 0 c) as [|_]; [lia|]. reflexivity. }
  exists m. split; [exact Hset|].
  assert (wf m) as Hwf
    by (unfold wf, m; simpl; rewrite length_replicate; unfold UINT_MOD in *; lia).
  repeat split; try reflexivity.
  intros Hrefl. apply (map_get_found m k Hwf 0%nat (mkEntry k v)).
  - simpl. rewrite Hrefl. reflexivity.
  - reflexivity.
  - unfold INT_MAX. lia.
Qed.

Lemma first_set_succeeds_witness :
  exists m,
    map_set false (map_create true true 0 (fun _ _ => None)) (Ptr 1 0) (Ptr 10 0)
      = Some (0, Some m) /\
    size m = 1 /\ capacity m = 10.
Proof.
  destruct (first_set_succeeds 0 (fun _ _ => None) false (Ptr 1 0) (Ptr 10 0))
    as (m & Hset & Hsz & _ & Hcap & _).
  - unfold UINT_MOD. lia.
  - exists m. auto.
Defined.

(** X9: on a map obtained from [map_create] by any operations, no entry
    hides another: [map_get] of the key stored in an occupied entry returns
    the value stored in that same entry, provided the key compares equal to
    itself. *)
Theorem stored_entry_retrievable initial_capacity cmp ops m0 m (i : nat) e :
  0 <= initial_capacity < UINT_MOD ->
  map_create true true initial_capacity cmp = Some m0 ->
  run ops m0 = Some m ->
  size m <= INT_MAX ->
  occupied m !! i = Some e ->
  cmp (key e) (key e) = Some 0 ->
  (forall e', e' ∈ occupied m -> is_Some (cmp (key e') (key e))) ->
  map_get (Some m) (key e) = Some (value e).
Proof.
  intros Hrange Hcreate Hrun Hsmall He Hrefl Hdef.
  destruct (map_create_inv _ _ _ _ _ Hrange Hcreate) as [Hinv0 Hc0].
  destruct (run_inv _ _ _ Hinv0 Hrun) as ([Hwf Hd] & Hc & _).
  assert (compare_func m = cmp) as Hcm by congruence. rewrite Hcm in Hd.
  apply (map_get_found m (key e) Hwf i e); [|exact He|].
  - rewrite Hcm. apply scan_found. exists e. repeat split; auto.
    intros j e' Hj He'.
    destruct (Hdef e') as [c Hcv]; [apply list_elem_of_lookup; eauto|].
    exists c. split; [exact Hcv|]. intros ->.
    apply (Hd j i e' e Hj He' He Hcv).
  - apply lookup_lt_Some in He. rewrite (occupied_length m Hwf) in He.
    destruct Hwf as (_ & ? & _). lia.
Qed.

Lemma stored_entry_retrievable_witness :
  map_get (Some int_map_4) (Ptr 6 0) = Some (Ptr 12 0).
Proof.
  apply (stored_entry_retrievable 2 (map_compare_int_keys num_heap)
           [OpSet true (Ptr 1 0) (Ptr 10 0); OpSet true (Ptr 3 0) (Ptr 11 0);
            OpSet true (Ptr 6 0) (Ptr 12 0); OpGet (Ptr 2 0); OpDelete (Ptr 1 0)]
           int_map_0 int_map_4 1%nat (mkEntry (Ptr 6 0) (Ptr 12 0))).
  - unfold UINT_MOD. lia.
  - reflexivity.
  - reflexivity.
  - vm_compute. discriminate.
  - reflexivity.
  - reflexivity.
  - intros e He. vm_compute in He.
    apply elem_of_cons in He as [->|He]; [vm_compute; eauto|].
    apply elem_of_cons in He as [->|He]; [vm_compute; eauto|].
    apply elem_of_nil in He. contradiction.
Defined.

(** ** Keys that are not a number *)

Lemma SFeqb_nan_r x : SFeqb x S754_nan = false.
Proof. destruct x; reflexivity. Qed.

(** X10: in a map on [float] keys (or on [double] keys) a key whose value
    is a NaN is never found: [find_entry_index] returns -1, [map_get]
    returns the null result and [map_delete] leaves the map as it is,
    whatever the map holds, an entry stored under that very key
    included. *)
Theorem nan_key_never_found (h : heap) (impl : MapImpl) (p : ptr) :
  wf impl ->
  (compare_func impl = map_compare_float_keys h /\
   load_float h p = Some S754_nan /\
   forall e, e ∈ occupied impl -> is_Some (load_float h (key e))) \/
  (compare_func impl = map_compare_double_keys h /\
   load_double h p = Some S754_nan /\
   forall e, e ∈ occupied impl -> is_Some (load_double h (key e))) ->
  find_entry_index impl p = Some (-1) /\
  map_get (Some impl) p = Some NULL /\
  map_delete (Some impl) p = Some (Some impl).
Proof.
  intros Hwf Hcase.
  assert (scan (compare_func impl) p (occupied impl) = Some None) as Hs.
  { apply scan_none. intros i e He.
    destruct Hcase as [(-> & Hp & Hdef)|(-> & Hp & Hdef)];
      (destruct (Hdef e) as [x Hx]; [apply list_elem_of_lookup; eauto|]);
      exists (-1); (split; [|discriminate]).
    - unfold map_compare_float_keys. rewrite Hx, Hp. simpl.
      rewrite SFeqb_nan_r. reflexivity.
    - unfold map_compare_double_keys. rewrite Hx, Hp. simpl.
      rewrite SFeqb_nan_r. reflexivity. }
  pose proof (find_entry_index_notfound impl p Hwf Hs) as Hf.
  split; [exact Hf|]. split.
  - apply (map_get_notfound impl p Hwf Hs).
  - simpl. rewrite Hf. reflexivity.
Qed.

Lemma nan_key_never_found_witness :
  map_get (Some (mkMap [mkEntry (Ptr 4 0) (Ptr 10 0); uninit_entry] 1 2
                       (map_compare_float_keys num_heap))) (Ptr 4 0) = Some NULL.
Proof.
  apply (nan_key_never_found num_heap).
  - unfold wf, UINT_MOD. simpl. lia.
  - left. split; [reflexivity|]. split; [reflexivity|].
    intros e He. vm_compute in He.
    apply elem_of_cons in He as [->|He]; [vm_compute; eauto|].
    apply elem_of_nil in He. contradiction.
Defined.

(** ** The string functions *)

Lemma str_lower_loop_unterminated rest :
  forall pre h nb fuel,
    blocks h !! nb = Some (CChars (pre ++ rest)) ->
    Forall (fun c => c <> 0) rest ->
    str_lower_loop fuel h (Ptr nb (Z.of_nat (length pre))) = None.
Proof.
  induction rest as [|c rest IH]; intros pre h nb fuel Hb Hnz;
    (destruct fuel as [|fuel]; [reflexivity|]); rewrite str_lower_loop_S.
  - unfold load_char.
    rewrite (chars_at_block h nb _ (length pre) Hb) by (rewrite length_app; simpl; lia).
    cbn [mbind option_bind]. rewrite app_nil_r.
    rewrite lookup_ge_None_2 by lia. reflexivity.
  - apply Forall_cons in Hnz as [Hc Hnz].
    rewrite (load_char_block h nb _ (length pre) Hb c)
      by (rewrite lookup_app_r by lia; rewrite Nat.sub_diag; reflexivity).
    cbn [mbind option_bind].
    destruct (Z.eqb_spec c 0) as [|_]; [contradiction|].
    rewrite (store_char_block h nb _ (length pre) Hb)
      by (rewrite length_app; simpl; lia).
    cbn [mbind option_bind ptr_add].
    replace (Z.of_nat (length pre) + 1) with (Z.of_nat (length (pre ++ [tolower c])))
      by (rewrite length_app; simpl; lia).
    apply (IH (pre ++ [tolower c])); [|exact Hnz].
    simpl. rewrite lookup_insert_eq. f_equal. f_equal.
    rewrite insert_app_r_alt by lia. rewrite Nat.sub_diag. simpl.
    rewrite <- app_assoc. reflexivity.
Qed.

(** X11: [str_lower] on a pointer to a C string replaces every character
    of the string by its lower-case form, in place, touches nothing else,
    and returns the address of the string's terminating NUL, not of its
    first character.  On characters that no NUL follows inside the array it
    faults. *)
Theorem str_lower_in_place (h : heap) (b : Z) (pre s tl : list Z) :
  Forall (fun c => c <> 0) s ->
  (blocks h !! b = Some (CChars (pre ++ s ++ 0 :: tl)) ->
   str_lower h (Ptr b (Z.of_nat (length pre))) =
   Some (Ptr b (Z.of_nat (length pre + length s)),
         mkHeap (<[b := CChars (pre ++ lowered s ++ 0 :: tl)]> (blocks h))
                (next_block h))) /\
  (blocks h !! b = Some (CChars (pre ++ s)) ->
   str_lower h (Ptr b (Z.of_nat (length pre))) = None).
Proof.
  intros Hnz. split; intros Hb; unfold str_lower.
  - rewrite (chars_at_block h b _ (length pre) Hb) by (rewrite length_app; lia).
    cbn [mbind option_bind].
    apply (str_lower_loop_spec s pre tl h b); [exact Hb|exact Hnz|].
    rewrite !length_app. simpl. lia.
  - rewrite (chars_at_block h b _ (length pre) Hb) by (rewrite length_app; lia).
    cbn [mbind option_bind].
    apply (str_lower_loop_unterminated s pre h b); assumption.
Qed.

Lemma str_lower_in_place_witness :
  str_lower demo_heap (Ptr 2 0) =
  Some (Ptr 2 2,
        mkHeap (<[2 := CChars [108; 117; 0]]> (blocks demo_heap)) 7).
Proof.
  destruct (str_lower_in_place demo_heap 2 [] [76; 117] []) as [Hterm _].
  - repeat constructor; discriminate.
  - apply Hterm. reflexivity.
Defined.

(** X12: on two C strings, and with both [strdup] calls succeeding,
    [map_compare_string_keys_ignoring_case] returns 0 whatever the strings
    are, and leaves two new blocks behind, the lower-cased copies of the
    two strings, which it never frees; every block that existed before the
    call is as it was. *)
Theorem ignoring_case_result (h : heap) (key1 key2 : ptr) (s1 s2 : list Z) :
  heap_wf h -> string_at h key1 s1 -> string_at h key2 s2 ->
  exists h',
    map_compare_string_keys_ignoring_case true true h key1 key2 = Some (0, h') /\
    next_block h' = next_block h + 2 /\
    blocks h' !! next_block h = Some (CChars (lowered s1 ++ [0])) /\
    blocks h' !! (next_block h + 1) = Some (CChars (lowered s2 ++ [0])) /\
    forall b, b < next_block h -> blocks h' !! b = blocks h !! b.
Proof.
  intros Hwf H1 H2. unfold map_compare_string_keys_ignoring_case.
  assert (key1 <> NULL) as Hn1
    by (destruct H1 as (? & ? & Hat & _); intros ->; discriminate).
  assert (key2 <> NULL) as Hn2
    by (destruct H2 as (? & ? & Hat & _); intros ->; discriminate).
  rewrite decide_False by exact Hn1. rewrite (strdup_str_lower h key1 s1 H1).
  cbn [mbind option_bind]. rewrite decide_False by exact Hn2.
  set (nb := next_block h).
  set (h1 := mkHeap (<[nb := CChars (lowered s1 ++ [0])]> (blocks h)) (nb + 1)).
  rewrite (strdup_str_lower h1 key2 s2) by (apply string_at_fresh; assumption).
  cbn [mbind option_bind]. simpl next_block. simpl blocks.
  set (h2 := mkHeap _ _).
  assert (blocks h2 !! nb = Some (CChars (lowered s1 ++ [0]))) as Hb1.
  { unfold h2. simpl. rewrite lookup_insert_ne by lia. apply lookup_insert_eq. }
  assert (blocks h2 !! (nb + 1) = Some (CChars (lowered s2 ++ [0]))) as Hb2.
  { unfold h2. simpl. apply lookup_insert_eq. }
  unfold map_compare_string_keys, strcmp.
  rewrite (chars_at_block h2 nb _ (length s1) Hb1)
    by (rewrite length_app; unfold lowered; rewrite length_fmap; lia).
  cbn [mbind option_bind].
  rewrite (chars_at_block h2 (nb + 1) _ (length s2) Hb2)
    by (rewrite length_app; unfold lowered; rewrite length_fmap; lia).
  cbn [mbind option_bind].
  rewrite !drop_app_length' by (unfold lowered; rewrite length_fmap; reflexivity).
  exists h2. split; [reflexivity|]. split; [unfold h2; simpl; lia|].
  split; [exact Hb1|]. split; [exact Hb2|].
  intros b Hlt. unfold h2. simpl. rewrite !lookup_insert_ne by (unfold nb; lia).
  reflexivity.
Qed.

Lemma demo_heap_wf : heap_wf demo_heap.
Proof.
  intros b [c Hc]. unfold demo_heap in *. simpl in *.
  repeat (apply lookup_insert_Some in Hc as [[<- _]|[_ Hc]]; [lia|]).
  rewrite lookup_empty in Hc. discriminate.
Defined.

Lemma ignoring_case_result_witness :
  exists h',
    map_compare_string_keys_ignoring_case true true demo_heap (Ptr 1 0) (Ptr 5 0)
      = Some (0, h') /\
    next_block h' = 9.
Proof.
  destruct (ignoring_case_result demo_heap (Ptr 1 0) (Ptr 5 0)
              [108; 117] [76; 117; 32; 87; 97; 110; 103])
    as (h' & Hres & Hnext & _).
  - exact demo_heap_wf.
  - eexists. exists 0%nat. split; reflexivity.
  - eexists. exists 0%nat. split; reflexivity.
  - exists h'. split; [exact Hres|exact Hnext].
Defined.

Lemma str_lower_loop_not_null fuel :
  forall q h1 d h',
    q <> NULL -> str_lower_loop fuel h1 q = Some (d, h') -> d <> NULL.
Proof.
  induction fuel as [|fuel IH]; intros q h1 d h' Hq; [discriminate|].
  rewrite str_lower_loop_S. destruct (load_char h1 q) as [c|]; [|discriminate].
  cbn [mbind option_bind]. destruct (c =? 0); [intros [= <- _]; exact Hq|].
  destruct (store_char h1 q (tolower c)) as [h2|]; [|discriminate].
  cbn [mbind option_bind]. apply IH. destruct q; [contradiction|discriminate].
Qed.

Lemma str_lower_not_null h0 q d h' : str_lower h0 q = Some (d, h') -> d <> NULL.
Proof.
  unfold str_lower. destruct q as [|b ofs]; [discriminate|].
  destruct (chars_at h0 (Ptr b ofs)) as [[cs i]|]; [|discriminate].
  cbn [mbind option_bind]. apply str_lower_loop_not_null. discriminate.
Qed.

(** The copy of a key is there only when its [strdup] has succeeded. *)
Lemma strdup_str_lower_Some ok h0 p d h' :
  ('(d, h') ← strdup ok h0 p; str_lower h' d) = Some (d, h') ->
  ok = true /\ d <> NULL.
Proof.
  unfold strdup.
  destruct (chars_at h0 p) as [[cs i]|]; [|discriminate]. cbn [mbind option_bind].
  destruct (cstring (drop i cs)) as [s|]; [|discriminate]. cbn [mbind option_bind].
  destruct ok; [|discriminate]. intros Hl. split; [reflexivity|].
  apply str_lower_not_null in Hl. exact Hl.
Qed.

(** X13: [map_compare_string_keys_ignoring_case] returns nothing when a
    key is null or a [strdup] fails: its null tests only skip the copy, and
    the null pointer goes on to [str_lower] or to [strcmp]. *)
Theorem ignoring_case_faults (ok1 ok2 : bool) (h : heap) (key1 key2 : ptr) :
  key1 = NULL \/ key2 = NULL \/ ok1 = false \/ ok2 = false ->
  map_compare_string_keys_ignoring_case ok1 ok2 h key1 key2 = None.
Proof.
  intros Hcase. unfold map_compare_string_keys_ignoring_case.
  destruct (decide (key1 = NULL)) as [->|Hn1].
  - cbn [mbind option_bind].
    destruct (if decide (key2 = NULL) then _ else _) as [[string2 h2]|];
      reflexivity.
  - destruct ('(d, h') ← strdup ok1 h key1; str_lower h' d) as [[string1 h1]|] eqn:H1;
      [|reflexivity].
    destruct (strdup_str_lower_Some ok1 h key1 string1 h1 H1) as [-> Hs1].
    cbn [mbind option_bind].
    destruct (decide (key2 = NULL)) as [->|Hn2].
    + cbn [mbind option_bind]. unfold map_compare_string_keys, strcmp.
      destruct (chars_at h1 string1) as [[cs1 i]|]; reflexivity.
    + destruct ('(d, h') ← strdup ok2 h1 key2; str_lower h' d)
        as [[string2 h2]|] eqn:H2; [|reflexivity].
      destruct (strdup_str_lower_Some ok2 h1 key2 string2 h2 H2) as [-> Hs2].
      destruct Hcase as [?|[?|[?|?]]]; congruence.
Qed.

Lemma ignoring_case_faults_witness :
  map_compare_string_keys_ignoring_case true true demo_heap NULL (Ptr 1 0) = None.
Proof. apply ignoring_case_faults. left. reflexivity. Defined.

Lemma strcmp_chars_defined a :
  forall b s1 s2,
    cstring a = Some s1 -> cstring b = Some s2 -> is_Some (strcmp_chars a b).
Proof.
  induction a as [|c1 r1 IH]; intros [|c2 r2] s1 s2; simpl; try discriminate.
  destruct (Z.eqb_spec c1 c2) as [->|Hne]; [|eauto].
  destruct (Z.eqb_spec c2 0) as [->|Hnz]; [eauto|].
  destruct (cstring r1) as [t1|] eqn:H1; [|discriminate].
  destruct (cstring r2) as [t2|] eqn:H2; [|discriminate].
  intros _ _. apply (IH r2 t1 t2); auto.
Qed.

(** X14: [map_compare_string_keys] on two C strings returns a result, and
    the result is 0 exactly when the two strings have the same characters
    (upper and lower case being different characters). *)
Theorem map_compare_string_keys_equal_iff (h : heap) (p q : ptr) (s1 s2 : list Z) :
  string_at h p s1 -> string_at h q s2 ->
  exists r, map_compare_string_keys h p q = Some r /\ (r = 0 <-> s1 = s2).
Proof.
  intros (cs1 & i & Hat1 & Hs1) (cs2 & j & Hat2 & Hs2).
  unfold map_compare_string_keys, strcmp. rewrite Hat1, Hat2.
  cbn [mbind option_bind].
  destruct (strcmp_chars_defined _ _ _ _ Hs1 Hs2) as [r Hr].
  exists r. split; [exact Hr|]. split.
  - intros ->. apply strcmp_chars_zero in Hr as (s & H1 & H2). congruence.
  - intros <-.
    assert (strcmp_chars (drop i cs1) (drop j cs2) = Some 0) as H0
      by (apply strcmp_chars_zero; eauto).
    congruence.
Qed.

Lemma map_compare_string_keys_equal_iff_witness :
  exists r, map_compare_string_keys demo_heap (Ptr 1 0) (Ptr 2 0) = Some r /\
            (r = 0 <-> [108; 117] = [76; 117]).
Proof.
  apply (map_compare_string_keys_equal_iff demo_heap (Ptr 1 0) (Ptr 2 0)).
  - eexists. exists 0%nat. split; reflexivity.
  - eexists. exists 0%nat. split; reflexivity.
Defined.

(** ** A map on case-insensitive string keys *)

Section IgnoringCaseMap.
Context (h : heap).
Hypothesis Hheap : heap_wf h.

Lemma ignoring_case_on_zero p q s1 s2 :
  string_at h p s1 -> string_at h q s2 -> ignoring_case_on h p q = Some 0.
Proof.
  intros H1 H2. unfold ignoring_case_on.
  destruct (map_compare_string_keys_ignoring_case_zero h p q s1 s2 Hheap H1 H2)
    as (h' & -> & _).
  reflexivity.
Qed.

Lemma ignoring_case_set_single impl ok k v r impl' :
  wf impl ->
  compare_func impl = ignoring_case_on h ->
  size impl <= 1 ->
  (forall e, e ∈ occupied impl -> exists s, string_at h (key e) s) ->
  (exists s, string_at h k s) ->
  map_set ok (Some impl) k v = Some (r, Some impl') ->
  wf impl' /\ compare_func impl' = ignoring_case_on h /\ size impl' <= 1 /\
  (forall e, e ∈ occupied impl' -> exists s, string_at h (key e) s).
Proof.
  intros Hwf Hcmp Hone Hkeys [sk Hk] Hset.
  destruct (map_set_inv impl k v ok Hwf r impl' Hset) as (Hc & Hwf' & Hout).
  split; [exact Hwf'|]. split; [congruence|].
  destruct Hout as [j e m Hs He Hocc Hsz _|m Hs Hocc Hsz _ _|_ _ _].
  - split; [lia|]. intros e' He'. rewrite Hocc in He'.
    apply list_elem_of_lookup in He' as [i Hi].
    apply list_lookup_insert_Some in Hi as [(-> & <- & _)|(_ & Hi)].
    + simpl. apply Hkeys. apply list_elem_of_lookup. eauto.
    + apply Hkeys. apply list_elem_of_lookup. eauto.
  - assert (occupied impl = []) as Hempty.
    { destruct (occupied impl) as [|e0 rest] eqn:Hocc0; [reflexivity|].
      destruct (Hkeys e0) as [s0 Hs0]; [left|].
      destruct (proj1 (scan_none _ _ _) Hs 0%nat e0) as (c & Hcv & Hne);
        [reflexivity|].
      rewrite Hcmp, (ignoring_case_on_zero _ _ s0 sk Hs0 Hk) in Hcv. congruence. }
    pose proof (occupied_length impl Hwf) as Hlen. rewrite Hempty in Hlen.
    simpl in Hlen. destruct Hwf as (_ & Hsize & _).
    split; [lia|]. intros e' He'. rewrite Hocc, Hempty in He'.
    apply list_elem_of_singleton in He' as ->. simpl. eauto.
  - auto.
Qed.

Lemma ignoring_case_run_sets calls :
  forall impl done m,
    wf impl ->
    compare_func impl = ignoring_case_on h ->
    size impl <= 1 ->
    (forall e, e ∈ occupied impl -> exists s, string_at h (key e) s) ->
    (forall c, c ∈ calls -> exists s, string_at h c.1.2 s) ->
    run_sets calls impl = Some (done, m) ->
    size m <= 1.
Proof.
  induction calls as [|[[ok k] v] calls IH];
    intros impl done m Hwf Hcmp Hone Hkeys Hcalls Hrun.
  - injection Hrun as _ <-. exact Hone.
  - cbn [run_sets] in Hrun.
    destruct (map_set ok (Some impl) k v) as [[r [impl'|]]|] eqn:Hset;
      try discriminate.
    cbn [mbind option_bind snd fst] in Hrun.
    destruct (run_sets calls impl') as [[done' m']|] eqn:Hrest; [|discriminate].
    cbn [mbind option_bind snd fst] in Hrun. injection Hrun as _ <-.
    destruct (ignoring_case_set_single impl ok k v r impl' Hwf Hcmp Hone Hkeys)
      as (Hwf' & Hcmp' & Hone' & Hkeys'); [|exact Hset|].
    + apply (Hcalls (ok, k, v)). left.
    + apply (IH impl' done' m' Hwf' Hcmp' Hone' Hkeys'); [|exact Hrest].
      intros c Hc. apply Hcalls. right. exact Hc.
Qed.
End IgnoringCaseMap.

(** X15: a map created with the case-insensitive comparator never holds
    more than one entry, whatever strings are set: every string compares
    equal to the stored key, so every [map_set] after the first overwrites
    the one entry. *)
Theorem ignoring_case_map_single_entry (h : heap) initial_capacity calls m0 done m :
  heap_wf h ->
  0 <= initial_capacity < UINT_MOD ->
  map_create true true initial_capacity (ignoring_case_on h) = Some m0 ->
  (forall c, c ∈ calls -> exists s, string_at h c.1.2 s) ->
  run_sets calls m0 = Some (done, m) ->
  size m <= 1.
Proof.
  intros Hheap Hrange Hcreate Hcalls Hrun.
  destruct (map_create_inv _ _ _ _ _ Hrange Hcreate) as [[Hwf _] Hc].
  assert (size m0 = 0) as Hs0.
  { unfold map_create in Hcreate. simpl in Hcreate. injection Hcreate as <-.
    reflexivity. }
  apply (ignoring_case_run_sets h Hheap calls m0 done m); try assumption.
  - lia.
  - intros e He. unfold occupied in He. rewrite Hs0 in He. simpl in He.
    apply elem_of_nil in He. contradiction.
Qed.

Lemma ignoring_case_map_single_entry_witness :
  run_sets [(true, Ptr 3 0, Ptr 5 0); (true, Ptr 4 0, Ptr 6 0)]
           (mkMap [uninit_entry; uninit_entry] 0 2 (ignoring_case_on demo_heap))
    = Some ([(Ptr 3 0, Ptr 5 0); (Ptr 4 0, Ptr 6 0)],
            mkMap [mkEntry (Ptr 3 0) (Ptr 6 0); uninit_entry] 1 2
                  (ignoring_case_on demo_heap)) /\
  size (mkMap [mkEntry (Ptr 3 0) (Ptr 6 0); uninit_entry] 1 2
              (ignoring_case_on demo_heap)) <= 1.
Proof.
  assert (run_sets [(true, Ptr 3 0, Ptr 5 0); (true, Ptr 4 0, Ptr 6 0)]
            (mkMap [uninit_entry; uninit_entry] 0 2 (ignoring_case_on demo_heap))
          = Some ([(Ptr 3 0, Ptr 5 0); (Ptr 4 0, Ptr 6 0)],
                  mkMap [mkEntry (Ptr 3 0) (Ptr 6 0); uninit_entry] 1 2
                        (ignoring_case_on demo_heap))) as Hrun
    by (vm_compute; reflexivity).
  split; [exact Hrun|].
  apply (ignoring_case_map_single_entry demo_heap 2
           [(true, Ptr 3 0, Ptr 5 0); (true, Ptr 4 0, Ptr 6 0)]
           (mkMap [uninit_entry; uninit_entry] 0 2 (ignoring_case_on demo_heap))
           [(Ptr 3 0, Ptr 5 0); (Ptr 4 0, Ptr 6 0)]).
  - exact demo_heap_wf.
  - unfold UINT_MOD. lia.
  - reflexivity.
  - intros c Hc.
    apply elem_of_cons in Hc as [->|Hc];
      [eexists; eexists; exists 0%nat; split; reflexivity|].
    apply elem_of_cons in Hc as [->|Hc];
      [eexists; eexists; exists 0%nat; split; reflexivity|].
    apply elem_of_nil in Hc. contradiction.
  - exact Hrun.
Defined.

(** ** A map on pointer keys *)

Section PtrKeyMap.
Context (k : ptr).

Lemma ptr_keys_scan_none (es : list MapEntry) :
  (forall e, e ∈ es -> key e = k) -> scan map_compare_ptr_keys k es = Some None.
Proof.
  intros Hkeys. apply scan_none. intros i e He. exists 1.
  split; [|discriminate].
  rewrite (Hkeys e) by (apply list_elem_of_lookup; eauto).
  unfold map_compare_ptr_keys, ptr_eq. rewrite decide_True by reflexivity.
  reflexivity.
Qed.

Lemma ptr_keys_run_sets calls :
  forall impl done m,
    wf impl ->
    compare_func impl = map_compare_ptr_keys ->
    (forall e, e ∈ occupied impl -> key e = k) ->
    (forall c, c ∈ calls -> c.1.2 = k) ->
    run_sets calls impl = Some (done, m) ->
    wf m /\ compare_func m = map_compare_ptr_keys /\
    size m = size impl + Z.of_nat (length done) /\
    (forall e, e ∈ occupied m -> key e = k).
Proof.
  induction calls as [|[[ok k0] v] calls IH];
    intros impl done m Hwf Hcmp Hkeys Hcalls Hrun.
  - injection Hrun as <- <-.
    split; [exact Hwf|]. split; [exact Hcmp|]. split; [simpl; lia|exact Hkeys].
  - cbn [run_sets] in Hrun.
    destruct (map_set ok (Some impl) k0 v) as [[r [impl'|]]|] eqn:Hset;
      try discriminate.
    cbn [mbind option_bind snd fst] in Hrun.
    destruct (run_sets calls impl') as [[done' m']|] eqn:Hrest; [|discriminate].
    cbn [mbind option_bind snd fst] in Hrun. injection Hrun as <- <-.
    assert (k0 = k) as -> by (apply (Hcalls (ok, k0, v)); left).
    destruct (map_set_inv impl k v ok Hwf r impl' Hset) as (Hc & Hwf' & Hout).
    pose proof (ptr_keys_scan_none (occupied impl) Hkeys) as Hnone.
    rewrite <- Hcmp in Hnone.
    assert (forall c, c ∈ calls -> c.1.2 = k) as Hcalls'
      by (intros c Hc'; apply Hcalls; right; exact Hc').
    destruct Hout as [j e m0 Hs He Hocc Hsz _|m0 Hs Hocc Hsz _ _|_ _ _];
      [congruence| |].
    + destruct (IH m0 done' m' Hwf' ltac:(congruence)) as (Hwm & Hcm & Hsm & Hkm);
        try assumption.
      * intros e He. rewrite Hocc in He.
        apply elem_of_app in He as [He|He]; [auto|].
        apply list_elem_of_singleton in He as ->. reflexivity.
      * split; [exact Hwm|]. split; [exact Hcm|]. split; [|exact Hkm].
        rewrite Z.eqb_refl. simpl length. lia.
    + destruct (IH impl done' m' Hwf Hcmp Hkeys Hcalls' Hrest)
        as (Hwm & Hcm & Hsm & Hkm).
      split; [exact Hwm|]. split; [exact Hcm|]. split; [|exact Hkm].
      change (-1 =? 0) with false. exact Hsm.
Qed.
End PtrKeyMap.

(** X16: a map created with [map_compare_ptr_keys] never finds a key it
    holds: however often one and the same pointer is set, every call that
    returns 0 appends one more entry (the size is the number of such calls)
    and [map_get] of that pointer returns the null result. *)
Theorem ptr_key_map_accumulates (k : ptr) initial_capacity calls m0 done m :
  0 <= initial_capacity < UINT_MOD ->
  map_create true true initial_capacity map_compare_ptr_keys = Some m0 ->
  (forall c, c ∈ calls -> c.1.2 = k) ->
  run_sets calls m0 = Some (done, m) ->
  size m = Z.of_nat (length done) /\
  map_get (Some m) k = Some NULL.
Proof.
  intros Hrange Hcreate Hcalls Hrun.
  destruct (map_create_inv _ _ _ _ _ Hrange Hcreate) as [[Hwf _] Hc].
  assert (size m0 = 0) as Hs0.
  { unfold map_create in Hcreate. simpl in Hcreate. injection Hcreate as <-.
    reflexivity. }
  destruct (ptr_keys_run_sets k calls m0 done m Hwf Hc) as (Hwm & Hcm & Hsm & Hkm);
    try assumption.
  - intros e He. unfold occupied in He. rewrite Hs0 in He. simpl in He.
    apply elem_of_nil in He. contradiction.
  - split; [lia|]. apply (map_get_notfound m k Hwm). rewrite Hcm.
    apply ptr_keys_scan_none. exact Hkm.
Qed.

Lemma ptr_key_map_accumulates_witness :
  exists m,
    run_sets [(true, Ptr 1 0, Ptr 10 0); (true, Ptr 1 0, Ptr 11 0);
              (true, Ptr 1 0, Ptr 12 0)]
             (mkMap [uninit_entry; uninit_entry] 0 2 map_compare_ptr_keys)
      = Some ([(Ptr 1 0, Ptr 10 0); (Ptr 1 0, Ptr 11 0); (Ptr 1 0, Ptr 12 0)], m) /\
    size m = 3 /\ map_get (Some m) (Ptr 1 0) = Some NULL.
Proof.
  exists (mkMap [mkEntry (Ptr 1 0) (Ptr 10 0); mkEntry (Ptr 1 0) (Ptr 11 0);
                 mkEntry (Ptr 1 0) (Ptr 12 0); uninit_entry]
                3 4 map_compare_ptr_keys).
  split; [reflexivity|].
  destruct (ptr_key_map_accumulates (Ptr 1 0) 2
              [(true, Ptr 1 0, Ptr 10 0); (true, Ptr 1 0, Ptr 11 0);
               (true, Ptr 1 0, Ptr 12 0)]
              (mkMap [uninit_entry; uninit_entry] 0 2 map_compare_ptr_keys)
              [(Ptr 1 0, Ptr 10 0); (Ptr 1 0, Ptr 11 0); (Ptr 1 0, Ptr 12 0)]
              (mkMap [mkEntry (Ptr 1 0) (Ptr 10 0); mkEntry (Ptr 1 0) (Ptr 11 0);
                      mkEntry (Ptr 1 0) (Ptr 12 0); uninit_entry]
                     3 4 map_compare_ptr_keys)) as [Hsz Hget].
  - unfold UINT_MOD. lia.
  - reflexivity.
  - intros c Hc.
    apply elem_of_cons in Hc as [->|Hc]; [reflexivity|].
    apply elem_of_cons in Hc as [->|Hc]; [reflexivity|].
    apply elem_of_cons in Hc as [->|Hc]; [reflexivity|].
    apply elem_of_nil in Hc. contradiction.
  - reflexivity.
  - split; [exact Hsz|exact Hget].
Defined.

(** ** Slots that are not occupied *)

Lemma map_get_occupied impl k :
  wf impl ->
  map_get (Some impl) k =
  (o ← scan (compare_func impl) k (occupied impl);
   match o with
   | None => Some NULL
   | Some j => _ ← to_int (Z.of_nat j); value <$> occupied impl !! j
   end).
Proof.
  intros Hwf. simpl. rewrite (find_entry_index_scan impl k Hwf).
  destruct (scan _ _ _) as [[j|]|] eqn:Hs; cbn [mbind option_bind index_of];
    try reflexivity.
  rewrite Nat.add_0_l. destruct (to_int (Z.of_nat j)) as [idx|] eqn:Hi;
    cbn [mbind option_bind]; [|reflexivity].
  apply to_int_Some in Hi as [-> _]. rewrite decide_True by lia.
  pose proof (scan_found_lt _ _ _ _ Hs) as Hlt.
  destruct (lookup_lt_is_Some_2 _ _ Hlt) as [e He].
  rewrite (entry_at_occupied impl j e He), He. reflexivity.
Qed.

(** X17: the operations never look at a slot that is not occupied: two
    maps with the same comparator and the same occupied entries give the
    same [find_entry_index] and the same [map_get], whatever their
    capacities are and whatever the slots from [size] on hold (what
    [malloc] left there, or the stale copy that [map_delete] leaves). *)
Theorem unoccupied_slots_unread (impl1 impl2 : MapImpl) (k : ptr) :
  wf impl1 -> wf impl2 ->
  compare_func impl1 = compare_func impl2 ->
  occupied impl1 = occupied impl2 ->
  find_entry_index impl1 k = find_entry_index impl2 k /\
  map_get (Some impl1) k = map_get (Some impl2) k.
Proof.
  intros Hwf1 Hwf2 Hc Hocc. split.
  - rewrite !find_entry_index_scan by assumption. rewrite Hc, Hocc. reflexivity.
  - rewrite !map_get_occupied by assumption. rewrite Hc, Hocc. reflexivity.
Qed.

Lemma unoccupied_slots_unread_witness :
  map_get (Some int_map_4) (Ptr 6 0) =
  map_get (Some (mkMap [mkEntry (Ptr 3 0) (Ptr 11 0); mkEntry (Ptr 6 0) (Ptr 12 0)]
                       2 2 (map_compare_int_keys num_heap))) (Ptr 6 0).
Proof.
  apply (unoccupied_slots_unread int_map_4).
  - unfold wf, UINT_MOD. simpl. lia.
  - unfold wf, UINT_MOD. simpl. lia.
  - reflexivity.
  - reflexivity.
Defined.
